(** * WatchTogether: room store, broadcast routing, seek detection and the
    torrent streaming gateway

    A shallow embedding of the server (server/rooms.js, server/index.js,
    server/torrent.js) and of the seek poll of the client (pages/Room.jsx),
    with the properties of the written specification stated over it.

    Conventions of the embedding.
    - JavaScript strings are [string]; [undefined]/[null] are [None].
    - Playback positions are JavaScript numbers; they are modelled by exact
      rationals [Q] (the rounding of IEEE doubles is abstracted away).
      Timestamps ([Date.now()]), byte offsets and lengths are integers [Z].
    - A JavaScript [Map] keeps insertion order: it is an association list
      with the update discipline of [Map.prototype.set].
    - Every reading of [Date.now()] is an explicit argument of the function
      in which the reading takes place.
    - A handler runs to completion before the next one starts (one event
      loop turn): it is one state transition. *)

From Stdlib Require Import ZArith QArith Qabs String Ascii List Bool Lia.
From stdpp Require Import base option gmap strings list.

Import ListNotations.

Set Warnings "-clear-no-such-hyp".

(** ** JavaScript helpers *)

(** [x || d] on a string that may be missing: [undefined], [null] and the
    empty string are falsy. *)
Definition truthy (x : option string) : bool :=
  match x with
  | Some s => negb (String.eqb s "")
  | None => false
  end.

Definition or_default (x : option string) (d : string) : string :=
  match x with
  | Some s => if String.eqb s "" then d else s
  | None => d
  end.

(** [x || null] *)
Definition or_null (x : option string) : option string :=
  if truthy x then x else None.

(** ** Insertion-ordered maps (JavaScript [Map] with string keys) *)

Module JSMap.
Section Ops.
Context {V : Type}.

Definition t := list (string * V).

Fixpoint get (k : string) (m : t) : option V :=
  match m with
  | [] => None
  | (k', v) :: m' => if String.eqb k k' then Some v else get k m'
  end.

Definition has (k : string) (m : t) : bool :=
  match get k m with Some _ => true | None => false end.

(** [set] keeps the position of a key that is already present and appends a
    new key at the end. *)
Fixpoint set (k : string) (v : V) (m : t) : t :=
  match m with
  | [] => [(k, v)]
  | (k', v') :: m' =>
      if String.eqb k k' then (k, v) :: m' else (k', v') :: set k v m'
  end.

(** A key occurs at most once in a [Map]; [delete] drops its entry. *)
Definition delete (k : string) (m : t) : t :=
  List.filter (fun e => negb (String.eqb k (fst e))) m.

Definition size (m : t) : Z := Z.of_nat (length m).

Definition entries (m : t) : list (string * V) := m.

Definition keys (m : t) : list string := map fst m.
End Ops.
Arguments t : clear implicits.
End JSMap.

(** ** server/rooms.js (v3): the in-memory room store *)

Module Rooms.

Record User := mkUser { username : string }.

Record Room := mkRoom {
  sourceType : string;
  videoId : option string;
  url : option string;
  magnetURI : option string;
  currentTime : Q;
  isPlaying : bool;
  lastUpdate : Z;
  users : JSMap.t User
}.

(** The argument of [updateRoom]: a field that is [None] is [undefined] in
    the object literal and is left alone. *)
Record Updates := mkUpdates {
  u_sourceType : option string;
  u_videoId : option (option string);
  u_url : option (option string);
  u_magnetURI : option (option string);
  u_currentTime : option Q;
  u_isPlaying : option bool
}.

Record UserEntry := mkUserEntry { ue_socketId : string; ue_username : string }.

(** The object returned by [getRoomState]. *)
Record RoomState := mkRoomState {
  rs_sourceType : string;
  rs_videoId : option string;
  rs_url : option string;
  rs_magnetURI : option string;
  rs_currentTime : Q;
  rs_isPlaying : bool;
  rs_userCount : Z;
  rs_users : list UserEntry
}.

Record LeaveResult := mkLeaveResult {
  remaining : Z;
  left_username : option string
}.

(** The module-level [rooms] map. *)
Abbreviation Store := (gmap string Room).

Definition set_users (room : Room) (us : JSMap.t User) : Room :=
  {| sourceType := sourceType room; videoId := videoId room;
     url := url room; magnetURI := magnetURI room;
     currentTime := currentTime room; isPlaying := isPlaying room;
     lastUpdate := lastUpdate room; users := us |}.

Definition createRoom (now : Z) (roomId : string) (rooms : Store)
  : Room * Store :=
  let room :=
    {| sourceType := "youtube"; videoId := None; url := None;
       magnetURI := None; currentTime := 0%Q; isPlaying := false;
       lastUpdate := now; users := [] |} in
  (room, <[roomId := room]> rooms).

Definition getRoom (roomId : string) (rooms : Store) : option Room :=
  rooms !! roomId.

(** [now] is read only when the room has to be created. *)
Definition joinRoom (now : Z) (roomId socketId : string)
    (name : option string) (rooms : Store) : Room * Store :=
  let '(room, rooms1) :=
    match rooms !! roomId with
    | Some room => (room, rooms)
    | None => createRoom now roomId rooms
    end in
  let room' :=
    set_users room
      (JSMap.set socketId (mkUser (or_default name "Guest")) (users room)) in
  (room', <[roomId := room']> rooms1).

Definition leaveRoom (roomId socketId : string) (rooms : Store)
  : LeaveResult * Store :=
  match rooms !! roomId with
  | None => (mkLeaveResult 0 None, rooms)
  | Some room =>
      let user := JSMap.get socketId (users room) in
      let name := username <$> user in
      let us := JSMap.delete socketId (users room) in
      if (JSMap.size us =? 0)%Z
      then (mkLeaveResult 0 name, delete roomId rooms)
      else (mkLeaveResult (JSMap.size us) name,
            <[roomId := set_users room us]> rooms)
  end.

Definition apply_updates (now : Z) (updates : Updates) (room : Room) : Room :=
  {| sourceType := default (sourceType room) (u_sourceType updates);
     videoId := default (videoId room) (u_videoId updates);
     url := default (url room) (u_url updates);
     magnetURI := default (magnetURI room) (u_magnetURI updates);
     currentTime := default (currentTime room) (u_currentTime updates);
     isPlaying := default (isPlaying room) (u_isPlaying updates);
     lastUpdate := now;
     users := users room |}.

Definition updateRoom (now : Z) (roomId : string) (updates : Updates)
    (rooms : Store) : option Room * Store :=
  match rooms !! roomId with
  | None => (None, rooms)
  | Some room =>
      let room' := apply_updates now updates room in
      (Some room', <[roomId := room']> rooms)
  end.

Definition getUsersList (roomId : string) (rooms : Store) : list UserEntry :=
  match rooms !! roomId with
  | None => []
  | Some room =>
      map (fun e => mkUserEntry (fst e) (username (snd e)))
          (JSMap.entries (users room))
  end.

(** Milliseconds to seconds. *)
Definition elapsed (now last : Z) : Q := (inject_Z (now - last) / 1000)%Q.

Definition getRoomState (now : Z) (roomId : string) (rooms : Store)
  : option RoomState :=
  match rooms !! roomId with
  | None => None
  | Some room =>
      let t :=
        if isPlaying room
        then (currentTime room + elapsed now (lastUpdate room))%Q
        else currentTime room in
      Some {| rs_sourceType := sourceType room; rs_videoId := videoId room;
              rs_url := url room; rs_magnetURI := magnetURI room;
              rs_currentTime := t; rs_isPlaying := isPlaying room;
              rs_userCount := JSMap.size (users room);
              rs_users := getUsersList roomId rooms |}
  end.

Definition roomExists (roomId : string) (rooms : Store) : bool :=
  bool_decide (is_Some (rooms !! roomId)).

(** The operations server/index.js imports, with the store each leaves
    behind. [getRoomState], [getUsersList] and [roomExists] contain no
    assignment. *)
Inductive Op :=
| JoinOp (now : Z) (roomId socketId : string) (name : option string)
| LeaveOp (roomId socketId : string)
| UpdateOp (now : Z) (roomId : string) (updates : Updates)
| GetRoomStateOp (now : Z) (roomId : string)
| GetUsersListOp (roomId : string)
| RoomExistsOp (roomId : string).

Definition exec (op : Op) (rooms : Store) : Store :=
  match op with
  | JoinOp now roomId socketId name =>
      snd (joinRoom now roomId socketId name rooms)
  | LeaveOp roomId socketId => snd (leaveRoom roomId socketId rooms)
  | UpdateOp now roomId updates => snd (updateRoom now roomId updates rooms)
  | GetRoomStateOp _ _ | GetUsersListOp _ | RoomExistsOp _ => rooms
  end.

Definition is_read (op : Op) : bool :=
  match op with
  | GetRoomStateOp _ _ | GetUsersListOp _ | RoomExistsOp _ => true
  | _ => false
  end.

(** Every room has at least one user: rooms are created by a join and
    deleted by the leave that empties them. *)
Definition populated (rooms : Store) : Prop :=
  map_Forall (fun _ room => users room ≠ []) rooms.

End Rooms.

(** ** server/rooms.js (v2): the store before media sources were added *)

Module RoomsV2.

Record Room := mkRoom {
  videoId : option string;
  currentTime : Q;
  isPlaying : bool;
  lastUpdate : Z;
  users : JSMap.t Rooms.User
}.

Record RoomState := mkRoomState {
  rs_videoId : option string;
  rs_currentTime : Q;
  rs_isPlaying : bool;
  rs_userCount : Z;
  rs_users : list Rooms.UserEntry
}.

Abbreviation Store := (gmap string Room).

Definition getUsersList (roomId : string) (rooms : Store)
  : list Rooms.UserEntry :=
  match rooms !! roomId with
  | None => []
  | Some room =>
      map (fun e => Rooms.mkUserEntry (fst e) (Rooms.username (snd e)))
          (JSMap.entries (users room))
  end.

Definition getRoomState (now : Z) (roomId : string) (rooms : Store)
  : option RoomState :=
  match rooms !! roomId with
  | None => None
  | Some room =>
      let t :=
        if isPlaying room
        then (currentTime room + Rooms.elapsed now (lastUpdate room))%Q
        else currentTime room in
      Some {| rs_videoId := videoId room; rs_currentTime := t;
              rs_isPlaying := isPlaying room;
              rs_userCount := JSMap.size (users room);
              rs_users := getUsersList roomId rooms |}
  end.

End RoomsV2.

(** ** server/index.js: REST endpoints and Socket.io handlers *)

Module Server.
Import Rooms.

(** Events the server sends to clients. *)
Inductive Message :=
| SyncState (state : option RoomState)
| UserJoined (name : string) (timestamp : Z)
| UserLeft (name : string) (timestamp : Z)
| UsersList (l : list UserEntry)
| VideoChange (sourceType videoId url magnetURI : option string)
| Play (currentTime : Q)
| Pause (currentTime : Q)
| Seek (currentTime : Q)
| ReceiveMessage (name text : string) (timestamp : Z).

(** One [emit]: the sockets that receive the message. *)
Record Emission := mkEmission { recipients : gset string; message : Message }.

(** The properties [roomId] and [username] that [join-room] stores on the
    socket object. *)
Record Socket := mkSocket {
  sock_roomId : option string;
  sock_username : option string
}.

Record State := mkState {
  rooms : gmap string Room;
  (** Socket.io adapter: channel name to the ids of the sockets in it *)
  adapter : gmap string (gset string);
  (** connected sockets, by id *)
  sockets : gmap string Socket
}.

Definition initial : State := mkState ∅ ∅ ∅.

(** *** Socket.io primitives *)

Definition members (roomId : string) (st : State) : gset string :=
  default ∅ (adapter st !! roomId).

(** [io.to(roomId)]: every socket in the channel. *)
Definition io_to (roomId : string) (st : State) : gset string :=
  members roomId st.

(** [socket.to(roomId)]: every socket in the channel except the sender. *)
Definition socket_to (sid roomId : string) (st : State) : gset string :=
  members roomId st ∖ {[sid]}.

(** [socket.join(roomId)] *)
Definition socket_join (sid roomId : string) (ad : gmap string (gset string))
  : gmap string (gset string) :=
  <[roomId := {[sid]} ∪ default ∅ (ad !! roomId)]> ad.

(** A new connection: the socket is registered and, as Socket.io does for
    every socket, put into the channel named by its own id. *)
Definition on_connection (sid : string) (st : State) : State :=
  mkState (rooms st) (socket_join sid sid (adapter st))
          (<[sid := mkSocket None None]> (sockets st)).

Definition sock_attr {A} (f : Socket -> option A) (sid : string) (st : State)
  : option A :=
  sockets st !! sid ≫= f.

(** *** Date.now() readings of one handler run, one per call site *)
Record Clock := mkClock {
  at_createRoom : Z;
  at_updateRoom : Z;
  at_getRoomState : Z;
  at_emit : Z
}.

Definition placeholder : string := "__placeholder__".
Arguments placeholder : simpl never.

(** POST /api/rooms; [roomId] is the 8-character code drawn by the handler. *)
Definition post_rooms (clk : Clock) (roomId : string) (st : State) : State :=
  let '(_, rooms1) :=
    joinRoom (at_createRoom clk) roomId placeholder (Some "__system__")
             (rooms st) in
  mkState rooms1 (adapter st) (sockets st).

(** GET /api/rooms/:roomId: [None] is the 404 answer. *)
Definition get_room (clk : Clock) (roomId : string) (st : State)
  : option RoomState :=
  if roomExists roomId (rooms st)
  then getRoomState (at_getRoomState clk) roomId (rooms st)
  else None.

Definition users_list_payload (roomId : string) (rooms : gmap string Room)
  : list UserEntry :=
  filter (fun u => ue_socketId u ≠ placeholder) (getUsersList roomId rooms).

Definition broadcastUsersList (roomId : string) (st : State) : Emission :=
  mkEmission (io_to roomId st) (UsersList (users_list_payload roomId (rooms st))).

Definition on_join_room (clk : Clock) (sid roomId : string)
    (name : option string) (st : State) : State * list Emission :=
  let ad := socket_join sid roomId (adapter st) in
  let uname := or_default name "Guest" in
  let socks := <[sid := mkSocket (Some roomId) (Some uname)]> (sockets st) in
  let '(_, rooms1) := leaveRoom roomId placeholder (rooms st) in
  let '(_, rooms2) :=
    joinRoom (at_createRoom clk) roomId sid (Some uname) rooms1 in
  let st' := mkState rooms2 ad socks in
  let state := getRoomState (at_getRoomState clk) roomId rooms2 in
  (st', [ mkEmission {[sid]} (SyncState state);
          mkEmission (socket_to sid roomId st')
                     (UserJoined uname (at_emit clk));
          broadcastUsersList roomId st' ]).

Definition on_video_change (clk : Clock) (sid roomId : string)
    (sourceType videoId url magnetURI : option string) (st : State)
  : State * list Emission :=
  let '(_, rooms1) :=
    updateRoom (at_updateRoom clk) roomId
      {| u_sourceType := Some (or_default sourceType "youtube");
         u_videoId := Some (or_null videoId);
         u_url := Some (or_null url);
         u_magnetURI := Some (or_null magnetURI);
         u_currentTime := Some 0%Q;
         u_isPlaying := Some false |} (rooms st) in
  (mkState rooms1 (adapter st) (sockets st),
   [ mkEmission (socket_to sid roomId st)
                (VideoChange sourceType videoId url magnetURI) ]).

Definition playback_update (t : Q) (playing : bool) : Updates :=
  {| u_sourceType := None; u_videoId := None; u_url := None;
     u_magnetURI := None; u_currentTime := Some t;
     u_isPlaying := Some playing |}.

Definition on_play (clk : Clock) (sid roomId : string) (t : Q) (st : State)
  : State * list Emission :=
  let '(_, rooms1) :=
    updateRoom (at_updateRoom clk) roomId (playback_update t true) (rooms st) in
  (mkState rooms1 (adapter st) (sockets st),
   [ mkEmission (socket_to sid roomId st) (Play t) ]).

Definition on_pause (clk : Clock) (sid roomId : string) (t : Q) (st : State)
  : State * list Emission :=
  let '(_, rooms1) :=
    updateRoom (at_updateRoom clk) roomId (playback_update t false) (rooms st) in
  (mkState rooms1 (adapter st) (sockets st),
   [ mkEmission (socket_to sid roomId st) (Pause t) ]).

Definition on_seek (clk : Clock) (sid roomId : string) (t : Q) (st : State)
  : State * list Emission :=
  let room := getRoomState (at_getRoomState clk) roomId (rooms st) in
  let playing := default false (rs_isPlaying <$> room) in
  let '(_, rooms1) :=
    updateRoom (at_updateRoom clk) roomId (playback_update t playing) (rooms st) in
  (mkState rooms1 (adapter st) (sockets st),
   [ mkEmission (socket_to sid roomId st) (Seek t) ]).

Definition on_send_message (clk : Clock) (sid roomId text : string)
    (st : State) : State * list Emission :=
  let uname := or_default (sock_attr sock_username sid st) "Guest" in
  (st, [ mkEmission (io_to roomId st)
                    (ReceiveMessage uname text (at_emit clk)) ]).

(** [disconnect]: Socket.io has already taken the socket out of every
    channel when the handler runs. *)
Definition on_disconnect (clk : Clock) (sid : string) (st : State)
  : State * list Emission :=
  let ad := (fun m : gset string => m ∖ {[sid]}) <$> adapter st in
  let socks := delete sid (sockets st) in
  match sock_attr sock_roomId sid st with
  | Some roomId =>
      if truthy (Some roomId) then
        let '(res, rooms1) := leaveRoom roomId sid (rooms st) in
        let st' := mkState rooms1 ad socks in
        if (0 <? remaining res)%Z
        then (st', [ mkEmission (io_to roomId st')
                       (UserLeft (or_default (left_username res) "Guest")
                                 (at_emit clk));
                     broadcastUsersList roomId st' ])
        else (st', [])
      else (mkState (rooms st) ad socks, [])
  | None => (mkState (rooms st) ad socks, [])
  end.

(** *** The server as a transition system *)

Inductive Input :=
| Connect (sid : string)
| PostRooms (roomId : string)
| JoinRoom (sid roomId : string) (name : option string)
| VideoChangeIn (sid roomId : string)
                (sourceType videoId url magnetURI : option string)
| PlayIn (sid roomId : string) (t : Q)
| PauseIn (sid roomId : string) (t : Q)
| SeekIn (sid roomId : string) (t : Q)
| SendMessage (sid roomId text : string)
| Disconnect (sid : string).

Definition step (clk : Clock) (i : Input) (st : State)
  : State * list Emission :=
  match i with
  | Connect sid => (on_connection sid st, [])
  | PostRooms roomId => (post_rooms clk roomId st, [])
  | JoinRoom sid roomId name => on_join_room clk sid roomId name st
  | VideoChangeIn sid roomId sourceType videoId url magnetURI =>
      on_video_change clk sid roomId sourceType videoId url magnetURI st
  | PlayIn sid roomId t => on_play clk sid roomId t st
  | PauseIn sid roomId t => on_pause clk sid roomId t st
  | SeekIn sid roomId t => on_seek clk sid roomId t st
  | SendMessage sid roomId text => on_send_message clk sid roomId text st
  | Disconnect sid => on_disconnect clk sid st
  end.

(** The states the server goes through on a sequence of inputs; these are
    the only states any request or event handler can observe. *)
Fixpoint run (ins : list (Clock * Input)) (st : State) : list State :=
  match ins with
  | [] => [st]
  | (clk, i) :: ins' => st :: run ins' (fst (step clk i st))
  end.

End Server.

(** ** JavaScript string and number primitives used by server/torrent.js *)

Module JS.

(** The result of [parseInt] and of the arithmetic done on it. Integers are
    exact here. JavaScript holds integers exactly up to
    [Number.MAX_SAFE_INTEGER], rounds [parseInt] beyond it and prints
    exponents from 1e21, so a statement that computes with the digits of a
    request is made for values up to that bound. *)
Inductive Num := NaN | Int (z : Z).

Definition MAX_SAFE_INTEGER : Z := 2 ^ 53 - 1.

Definition add (a b : Num) : Num :=
  match a, b with
  | Int x, Int y => Int (x + y)
  | _, _ => NaN
  end.

Definition sub (a b : Num) : Num :=
  match a, b with
  | Int x, Int y => Int (x - y)
  | _, _ => NaN
  end.

Definition digit_of (c : ascii) : option N :=
  let n := N_of_ascii c in
  if ((48 <=? n) && (n <=? 57))%N then Some (n - 48)%N else None.

Definition is_digit (c : ascii) : bool :=
  match digit_of c with Some _ => true | None => false end.

(** Code units below 256 that [parseInt] skips as white space. *)
Definition is_space (c : ascii) : bool :=
  let n := N_of_ascii c in
  ((9 <=? n) && (n <=? 13) || (n =? 32) || (n =? 160))%N.

Fixpoint skip_spaces (s : string) : string :=
  match s with
  | String c s' => if is_space c then skip_spaces s' else s
  | EmptyString => s
  end.

(** The value of the longest prefix of decimal digits, continuing [acc]. *)
Fixpoint digits_value (s : string) (acc : N) : N :=
  match s with
  | String c s' =>
      match digit_of c with
      | Some d => digits_value s' (10 * acc + d)
      | None => acc
      end
  | EmptyString => acc
  end.

Definition starts_with_digit (s : string) : bool :=
  match s with
  | String c _ => is_digit c
  | EmptyString => false
  end.

Definition parse_unsigned (s : string) : option N :=
  if starts_with_digit s then Some (digits_value s 0) else None.

Definition signed (neg : bool) (n : option N) : Num :=
  match n with
  | Some n => Int (if neg then - Z.of_N n else Z.of_N n)
  | None => NaN
  end.

(** [parseInt(s, 10)] *)
Definition parseInt (s : string) : Num :=
  match skip_spaces s with
  | String c r =>
      if Ascii.eqb c "-" then signed true (parse_unsigned r)
      else if Ascii.eqb c "+" then signed false (parse_unsigned r)
      else signed false (parse_unsigned (String c r))
  | EmptyString => NaN
  end.

(** Decimal digits of [n], most significant first, in front of [acc]. *)
Fixpoint digits_of (fuel : nat) (n : N) (acc : string) : string :=
  let acc' := String (ascii_of_N (48 + n mod 10)) acc in
  match fuel with
  | O => acc'
  | S fuel' => if (n / 10 =? 0)%N then acc' else digits_of fuel' (n / 10) acc'
  end.

Definition string_of_N (n : N) : string :=
  digits_of (N.to_nat (N.log2 n)) n EmptyString.

Definition string_of_Z (z : Z) : string :=
  match z with
  | Zneg p => String "-" (string_of_N (Npos p))
  | _ => string_of_N (Z.to_N z)
  end.

(** A number inside a template literal. *)
Definition to_string (x : Num) : string :=
  match x with
  | NaN => "NaN"
  | Int z => string_of_Z z
  end.

Fixpoint strip_prefix (p s : string) : option string :=
  match p, s with
  | EmptyString, _ => Some s
  | String a p', String b s' => if Ascii.eqb a b then strip_prefix p' s' else None
  | String _ _, EmptyString => None
  end.

(** [s.replace(/pat/, rep)] for a pattern without metacharacters: the first
    occurrence is replaced. *)
Fixpoint replace_first (pat rep s : string) : string :=
  match strip_prefix pat s with
  | Some rest => rep +:+ rest
  | None =>
      match s with
      | String c s' => String c (replace_first pat rep s')
      | EmptyString => EmptyString
      end
  end.

(** [s.split(sep)] for a one-character separator. *)
Fixpoint split (sep : ascii) (s : string) : list string :=
  match s with
  | EmptyString => [EmptyString]
  | String c s' =>
      if Ascii.eqb c sep then EmptyString :: split sep s'
      else match split sep s' with
           | p :: ps => String c p :: ps
           | [] => [String c EmptyString]
           end
  end.

Definition lower (c : ascii) : ascii :=
  let n := N_of_ascii c in
  if ((65 <=? n) && (n <=? 90))%N then ascii_of_N (n + 32) else c.

(** [toLowerCase] on the code units below 128. *)
Fixpoint toLowerCase (s : string) : string :=
  match s with
  | String c s' => String (lower c) (toLowerCase s')
  | EmptyString => EmptyString
  end.

Fixpoint endsWith (s suffix : string) : bool :=
  if String.eqb s suffix then true
  else match s with
       | String _ s' => endsWith s' suffix
       | EmptyString => false
       end.

End JS.

(** ** server/torrent.js: the single-slot torrent streaming gateway *)

Module Torrent.
Import JS.

Record File := mkFile { f_name : string; f_length : Z }.

(** What the handlers read from a WebTorrent torrent object; [t_progress]
    is the fraction downloaded at the time of the read. *)
Record TorrentObj := mkTorrent {
  t_name : string;
  t_files : list File;
  t_progress : Q
}.

(** The four module-level variables. *)
Record Gateway := mkGateway {
  activeTorrent : option TorrentObj;
  activeFile : option File;
  activeMagnet : option string;
  addError : option string
}.

Definition idle : Gateway := mkGateway None None None None.

(** Calls made on the WebTorrent client, in order. *)
Inductive ClientCall :=
| ClientRemove (t : TorrentObj)
| ClientAdd (magnetURI : string).

Definition VIDEO_EXTS : list string :=
  [".mp4"; ".webm"; ".mkv"; ".avi"; ".ogg"; ".m4v"; ".mov"; ".m2ts"; ".ts"].

Definition is_video (f : File) : bool :=
  existsb (fun ext => endsWith (toLowerCase (f_name f)) ext) VIDEO_EXTS.

(** Stable insertion into a list sorted by decreasing length, the order
    [sort((a, b) => b.length - a.length)] produces. *)
Fixpoint insert_desc (f : File) (l : list File) : list File :=
  match l with
  | [] => [f]
  | g :: l' =>
      if (f_length f <? f_length g)%Z then g :: insert_desc f l' else f :: l
  end.

Definition sort_desc (l : list File) : list File :=
  fold_right insert_desc [] l.

Definition findVideoFile (t : TorrentObj) : option File :=
  head (sort_desc (List.filter is_video (t_files t))).

(** *** POST /api/torrent/add *)

Inductive AddResponse :=
| BadRequest
| AlreadyActive
| Adding.

Definition is_some {A} (x : option A) : bool :=
  match x with Some _ => true | None => false end.

Definition same_magnet (g : Gateway) (magnetURI : string) : bool :=
  match activeMagnet g with
  | Some m => String.eqb m magnetURI
  | None => false
  end.

(** The handler from its first statement to the response, with the calls it
    makes on the client. The client object is obtained between the
    already-active test and the teardown; nothing else is taken to run in
    between. *)
Definition post_add (magnetURI : option string) (g : Gateway)
  : Gateway * list ClientCall * AddResponse :=
  if negb (truthy magnetURI) then (g, [], BadRequest)
  else
    let m := default EmptyString magnetURI in
    if same_magnet g m && is_some (activeTorrent g)
    then (g, [], AlreadyActive)
    else
      let '(g1, calls) :=
        match activeTorrent g with
        | Some t => (idle, [ClientRemove t])
        | None => (g, [])
        end in
      (mkGateway (activeTorrent g1) (activeFile g1) (Some m) None,
       calls ++ [ClientAdd m], Adding).

(** The callback of [client.add]: the metadata of the torrent arrived. *)
Definition on_torrent (t : TorrentObj) (g : Gateway) : Gateway :=
  mkGateway (Some t) (findVideoFile t) (activeMagnet g) (addError g).

(** The ["error"] listeners of the torrent and of the client. *)
Definition on_error (msg : string) (g : Gateway) : Gateway :=
  mkGateway (activeTorrent g) (activeFile g) (activeMagnet g) (Some msg).

(** *** GET /api/torrent/status: the [status] and [ready] fields *)

Definition status (g : Gateway) : string :=
  if truthy (addError g) then "error"
  else
    match activeTorrent g with
    | None => if truthy (activeMagnet g) then "connecting" else "idle"
    | Some t =>
        match activeFile g with
        | Some _ =>
            if Qle_bool (1 # 100) (t_progress t)
            then "streaming" else "downloading"
        | None => "no-video"
        end
    end.

Definition ready (g : Gateway) : bool :=
  match activeTorrent g, activeFile g with
  | Some t, Some _ => Qle_bool (5 # 1000) (t_progress t)
  | _, _ => false
  end.

(** *** GET /api/torrent/stream *)

Inductive HeaderValue :=
| HStr (s : string)
| HNum (n : Num).

Inductive Body :=
| JsonError (msg : string)
(** [file.createReadStream(opts)] piped into the response *)
| ReadStream (file : File) (opts : option (Num * Num)).

Record Response := mkResponse {
  res_status : Z;
  res_headers : list (string * HeaderValue);
  res_body : Body
}.

(** The own keys of [mimeMap]. A selected file comes from [findVideoFile],
    so its extension is one of them. *)
Definition mimeMap : list (string * string) :=
  [ ("mp4", "video/mp4"); ("webm", "video/webm"); ("mkv", "video/x-matroska");
    ("avi", "video/x-msvideo"); ("ogg", "video/ogg"); ("m4v", "video/mp4");
    ("mov", "video/quicktime"); ("ts", "video/mp2t"); ("m2ts", "video/mp2t") ].

Definition contentType (file : File) : string :=
  let ext := toLowerCase (List.last (split "." (f_name file)) EmptyString) in
  or_default (JSMap.get ext mimeMap) "video/mp4".

(** The status and the headers the handler passes to [res.writeHead] (or the
    status and message of [res.status().json()]), with the read stream it
    pipes into the response. The calls made on the response, also when the
    read stream fails, are [serve] below. *)
Definition get_stream (range : option string) (g : Gateway) : Response :=
  match activeFile g with
  | None =>
      mkResponse 404 []
        (JsonError "No video file available. Add a torrent first.")
  | Some file =>
      let fileSize := f_length file in
      if truthy range then
        let parts :=
          split "-" (replace_first "bytes=" "" (default EmptyString range)) in
        let start := parseInt (nth 0 parts "undefined") in
        let end_ :=
          if truthy (nth_error parts 1)
          then parseInt (nth 1 parts "undefined")
          else Int (fileSize - 1) in
        let chunkSize := add (sub end_ start) (Int 1) in
        mkResponse 206
          [ ("Content-Range",
             HStr ("bytes " +:+ to_string start +:+ "-" +:+ to_string end_
                   +:+ "/" +:+ string_of_Z fileSize));
            ("Accept-Ranges", HStr "bytes");
            ("Content-Length", HNum chunkSize);
            ("Content-Type", HStr (contentType file)) ]
          (ReadStream file (Some (start, end_)))
      else
        mkResponse 200
          [ ("Content-Length", HNum (Int fileSize));
            ("Content-Type", HStr (contentType file));
            ("Accept-Ranges", HStr "bytes") ]
          (ReadStream file None)
  end.


(** *** The calls made on the response, and a read stream that fails *)

(** Calls on [res], in order. *)
Inductive ResCall :=
| StatusJson (status : Z) (error : string)
| WriteHead (status : Z) (headers : list (string * HeaderValue))
| Pipe (file : File) (opts : option (Num * Num))
| StatusEnd (status : Z).

(** How the read stream ends: every byte delivered, or an ["error"] event.
    Which of the two happens is decided by WebTorrent, not by the handler. *)
Inductive StreamEnd :=
| Delivered
| Failed (message : string).

(** The ["error"] listener of the read stream, after its log line:
    [if (!res.headersSent) res.status(500).end()]. *)
Definition on_stream_error (headersSent : bool) : list ResCall :=
  if negb headersSent then [StatusEnd 500] else [].

(** The calls of one request up to the end of its read stream. The listener
    is registered after [res.writeHead], which sets [res.headersSent]. *)
Definition serve (range : option string) (g : Gateway) (e : StreamEnd)
  : list ResCall :=
  let r := get_stream range g in
  match res_body r with
  | JsonError msg => [StatusJson (res_status r) msg]
  | ReadStream file opts =>
      let headersSent := true in
      [WriteHead (res_status r) (res_headers r); Pipe file opts]
      ++ match e with
         | Delivered => []
         | Failed _ => on_stream_error headersSent
         end
  end.

(** *** POST /api/torrent/remove *)

Definition post_remove (g : Gateway) : Gateway * list ClientCall :=
  (idle,
   match activeTorrent g with
   | Some t => [ClientRemove t]
   | None => []
   end).

End Torrent.

(** ** client/src/pages/Room.jsx: seek detection for the YouTube player *)

Module Client.

(** The refs the poll reads and writes. *)
Record Refs := mkRefs {
  isRemoteAction : bool;
  lastTimeRef : Q
}.

(** The player handed to [onYTReady]; [getCurrentTime] is [None] when the
    object has no such method. *)
Record Player := mkPlayer { getCurrentTime : option Q }.

(** [socket.emit("seek", {roomId, currentTime})] *)
Record SeekIntent := mkSeek { seek_roomId : string; seek_currentTime : Q }.

(** [diff > 2] *)
Definition gt2 (diff : Q) : bool := negb (Qle_bool diff 2).

(** The body of the 500 ms interval callback. *)
Definition seek_poll (roomId : string) (player : Player) (r : Refs)
  : Refs * list SeekIntent :=
  match getCurrentTime player with
  | None => (r, [])
  | Some t =>
      let diff := Qabs (t - lastTimeRef r) in
      (mkRefs (isRemoteAction r) t,
       if gt2 diff && negb (isRemoteAction r) then [mkSeek roomId t] else [])
  end.

End Client.

(** * Properties *)

Lemma or_default_Guest (x : option string) :
  or_default (Some (or_default x "Guest")) "Guest" = or_default x "Guest".
Proof.
  destruct x as [s|]; simpl; [|done].
  destruct (String.eqb s "") eqn:E; simpl; [done|]. by rewrite E.
Qed.

(** ** Insertion-ordered maps *)

Module JSMapFacts.
Section Facts.
Context {V : Type}.
Implicit Types (m : JSMap.t V) (k : string) (v : V).

Lemma get_set_eq m k v : JSMap.get k (JSMap.set k v m) = Some v.
Proof.
  induction m as [|[k' v'] m IH]; simpl.
  - by rewrite String.eqb_refl.
  - destruct (String.eqb k k') eqn:E; simpl.
    + by rewrite String.eqb_refl.
    + by rewrite E.
Qed.

Lemma get_set_ne m k k' v :
  k ≠ k' → JSMap.get k' (JSMap.set k v m) = JSMap.get k' m.
Proof.
  intros Hne. induction m as [|[k0 v0] m IH]; simpl.
  - destruct (String.eqb_spec k' k); congruence.
  - destruct (String.eqb_spec k k0) as [->|]; simpl.
    + destruct (String.eqb_spec k' k0); congruence.
    + destruct (String.eqb_spec k' k0); congruence.
Qed.

Lemma get_singleton_eq k v : JSMap.get k [(k, v)] = Some v.
Proof. simpl. by rewrite String.eqb_refl. Qed.

Lemma get_singleton_ne k k' v : k ≠ k' → JSMap.get k [(k', v)] = None.
Proof. intros Hne. simpl. by destruct (String.eqb_spec k k'). Qed.

Lemma get_delete_eq m k : JSMap.get k (JSMap.delete k m) = None.
Proof.
  induction m as [|[k' v'] m IH]; simpl; [done|].
  destruct (String.eqb k k') eqn:E; simpl; [done|]. by rewrite E.
Qed.

Lemma get_delete_ne m k k' :
  k ≠ k' → JSMap.get k' (JSMap.delete k m) = JSMap.get k' m.
Proof.
  intros Hne. induction m as [|[k0 v0] m IH]; simpl; [done|].
  destruct (String.eqb_spec k k0) as [->|]; simpl.
  - destruct (String.eqb_spec k' k0); congruence.
  - destruct (String.eqb_spec k' k0); congruence.
Qed.

Lemma delete_absent m k : JSMap.get k m = None → JSMap.delete k m = m.
Proof.
  induction m as [|[k' v'] m IH]; simpl; [done|].
  destruct (String.eqb k k'); simpl; [done|]. intros H. by rewrite IH.
Qed.

Lemma set_nonempty m k v : JSMap.set k v m ≠ [].
Proof. destruct m as [|[k' v'] m]; simpl; [done|]. by destruct (String.eqb k k'). Qed.

Lemma size_zero m : (JSMap.size m =? 0)%Z = true ↔ m = [].
Proof.
  unfold JSMap.size. destruct m; simpl; split; done.
Qed.

Lemma get_Some_in m k v : JSMap.get k m = Some v → (k, v) ∈ m.
Proof.
  induction m as [|[k' v'] m IH]; simpl; [done|].
  destruct (String.eqb_spec k k') as [->|].
  - intros [= ->]. left.
  - intros H. right. by apply IH.
Qed.
End Facts.
End JSMapFacts.

(** ** The room store *)

Module RoomsFacts.
Import Rooms JSMapFacts.

Lemma set_users_id room : set_users room (users room) = room.
Proof. by destruct room. Qed.

Lemma populated_empty : populated ∅.
Proof. apply map_Forall_empty. Qed.

(** Joins, leaves and updates keep every room populated. *)
Lemma populated_exec op rooms : populated rooms → populated (exec op rooms).
Proof.
  intros Hp. destruct op as [now r sid name|r sid|now r upd| | |]; simpl; try done.
  - unfold joinRoom, createRoom.
    destruct (rooms !! r) as [room|] eqn:E; simpl.
    + apply map_Forall_insert_2; [apply set_nonempty|done].
    + rewrite insert_insert_eq. by apply map_Forall_insert_2.
  - unfold leaveRoom. destruct (rooms !! r) as [room|] eqn:E; simpl; [|done].
    destruct (JSMap.size _ =? 0)%Z eqn:Hs; simpl.
    + by apply map_Forall_delete.
    + apply map_Forall_insert_2; [|done]. simpl.
      intros Hnil. apply size_zero in Hnil. congruence.
  - unfold updateRoom. destruct (rooms !! r) as [room|] eqn:E; simpl; [|done].
    apply map_Forall_insert_2; [|done]. simpl. by apply (Hp r room).
Qed.

(** An operation leaves the rooms it does not name alone. *)
Definition target (op : Op) : string :=
  match op with
  | JoinOp _ r _ _ | LeaveOp r _ | UpdateOp _ r _
  | GetRoomStateOp _ r | GetUsersListOp r | RoomExistsOp r => r
  end.

Lemma exec_other op rooms r : r ≠ target op → exec op rooms !! r = rooms !! r.
Proof.
  intros Hne. destruct op as [now r' sid name|r' sid|now r' upd| | |];
    simpl in *; try done.
  - unfold joinRoom, createRoom. destruct (rooms !! r'); simpl;
      rewrite ?lookup_insert_ne; done.
  - unfold leaveRoom. destruct (rooms !! r'); simpl; [|done].
    destruct (_ =? _)%Z; simpl; [by rewrite lookup_delete_ne|by rewrite lookup_insert_ne].
  - unfold updateRoom. destruct (rooms !! r'); simpl; [|done].
    by rewrite lookup_insert_ne.
Qed.

Lemma roomExists_true r (rooms : gmap string Room) :
  roomExists r rooms = true ↔ is_Some (rooms !! r).
Proof. unfold roomExists. by rewrite bool_decide_eq_true. Qed.

Lemma roomExists_false r (rooms : gmap string Room) :
  roomExists r rooms = false ↔ rooms !! r = None.
Proof.
  unfold roomExists. rewrite bool_decide_eq_false, eq_None_not_Some. done.
Qed.

(** Joining a room that exists: the user is set, nothing else changes. *)
Lemma joinRoom_existing now r sid name (rooms : gmap string Room) room :
  rooms !! r = Some room →
  joinRoom now r sid name rooms =
    (set_users room (JSMap.set sid (mkUser (or_default name "Guest")) (users room)),
     <[r := set_users room
              (JSMap.set sid (mkUser (or_default name "Guest")) (users room))]> rooms).
Proof. intros H. unfold joinRoom. by rewrite H. Qed.

(** Joining a room that does not exist creates it with the default state. *)
Lemma joinRoom_fresh now r sid name (rooms : gmap string Room) :
  rooms !! r = None →
  snd (joinRoom now r sid name rooms) =
    <[r := {| sourceType := "youtube"; videoId := None; url := None;
              magnetURI := None; currentTime := 0%Q; isPlaying := false;
              lastUpdate := now;
              users := [(sid, mkUser (or_default name "Guest"))] |}]> rooms.
Proof.
  intros H. unfold joinRoom, createRoom. rewrite H. simpl.
  by rewrite insert_insert_eq.
Qed.

Lemma leaveRoom_absent_room r sid (rooms : gmap string Room) :
  rooms !! r = None → leaveRoom r sid rooms = (mkLeaveResult 0 None, rooms).
Proof. intros H. unfold leaveRoom. by rewrite H. Qed.

(** *** Drift compensation *)

(** C2. For an existing room, [getRoomState] (v3 and v2 alike) reports the
    stored [currentTime] plus [(now - lastUpdate) / 1000] when the room is
    playing and exactly the stored [currentTime], whatever [now] is, when it
    is not; the read leaves the store as it was. *)
Theorem getRoomState_live_time (now : Z) (roomId : string)
    (rooms : gmap string Room) (room : Room)
    (rooms2 : gmap string RoomsV2.Room) (room2 : RoomsV2.Room) :
  rooms !! roomId = Some room →
  rooms2 !! roomId = Some room2 →
  (∃ st, getRoomState now roomId rooms = Some st ∧
     (isPlaying room = true →
        rs_currentTime st =
          (currentTime room + inject_Z (now - lastUpdate room) / 1000)%Q) ∧
     (isPlaying room = false → rs_currentTime st = currentTime room) ∧
     rs_isPlaying st = isPlaying room) ∧
  exec (GetRoomStateOp now roomId) rooms = rooms ∧
  (∃ st2, RoomsV2.getRoomState now roomId rooms2 = Some st2 ∧
     (RoomsV2.isPlaying room2 = true →
        RoomsV2.rs_currentTime st2 =
          (RoomsV2.currentTime room2
           + inject_Z (now - RoomsV2.lastUpdate room2) / 1000)%Q) ∧
     (RoomsV2.isPlaying room2 = false →
        RoomsV2.rs_currentTime st2 = RoomsV2.currentTime room2)).
Proof.
  intros H H2. split; [|split]; [|reflexivity|].
  - unfold getRoomState. rewrite H. eexists. split; [reflexivity|]. simpl.
    repeat split; intros ->; reflexivity.
  - unfold RoomsV2.getRoomState. rewrite H2. eexists. split; [reflexivity|].
    simpl. split; intros ->; reflexivity.
Qed.

(** The late-join example of the specification: position 10.5 stored at
    [T0 = 1000], read 5000 ms later. *)
Definition drift_room (playing : bool) : Room :=
  {| sourceType := "youtube"; videoId := Some "dQw4w9WgXcQ"; url := None;
     magnetURI := None; currentTime := 10.5%Q; isPlaying := playing;
     lastUpdate := 1000; users := [("a", mkUser "Ann")] |}.

Definition drift_room2 (playing : bool) : RoomsV2.Room :=
  {| RoomsV2.videoId := Some "dQw4w9WgXcQ"; RoomsV2.currentTime := 10.5%Q;
     RoomsV2.isPlaying := playing; RoomsV2.lastUpdate := 1000;
     RoomsV2.users := [("a", mkUser "Ann")] |}.

Lemma getRoomState_live_time_witness :
  ∃ st, getRoomState 6000 "r" {["r" := drift_room true]} = Some st ∧
        (rs_currentTime st == 15.5)%Q.
Proof.
  destruct (getRoomState_live_time 6000 "r" {["r" := drift_room true]}
              (drift_room true) {["r" := drift_room2 true]} (drift_room2 true)
              (lookup_singleton_eq _ _) (lookup_singleton_eq _ _))
    as [[st [Hst [Hplay _]]] _].
  exists st. split; [exact Hst|]. rewrite (Hplay eq_refl). reflexivity.
Defined.

(** *** Leaving and rejoining *)

(** C4. In a populated store, when the only participant of a room leaves,
    the room is deleted and a later join under the same id starts from the
    default state; a leave that names an absent room or an absent participant
    changes nothing. *)
Theorem leave_last_then_rejoin (rooms : gmap string Room)
    (roomId sid : string) :
  populated rooms →
  (∀ room u, rooms !! roomId = Some room → users room = [(sid, u)] →
     leaveRoom roomId sid rooms =
       (mkLeaveResult 0 (Some (username u)), delete roomId rooms) ∧
     roomExists roomId (snd (leaveRoom roomId sid rooms)) = false ∧
     ∀ now sid' name,
       snd (joinRoom now roomId sid' name (snd (leaveRoom roomId sid rooms)))
         !! roomId =
       Some {| sourceType := "youtube"; videoId := None; url := None;
               magnetURI := None; currentTime := 0%Q; isPlaying := false;
               lastUpdate := now;
               users := [(sid', mkUser (or_default name "Guest"))] |}) ∧
  (rooms !! roomId = None →
     leaveRoom roomId sid rooms = (mkLeaveResult 0 None, rooms)) ∧
  (∀ room, rooms !! roomId = Some room → JSMap.get sid (users room) = None →
     leaveRoom roomId sid rooms =
       (mkLeaveResult (JSMap.size (users room)) None, rooms)).
Proof.
  intros Hp. split; [|split].
  - intros room u H Hu.
    assert (Hleave : leaveRoom roomId sid rooms =
              (mkLeaveResult 0 (Some (username u)), delete roomId rooms)).
    { unfold leaveRoom. rewrite H, Hu. simpl. by rewrite String.eqb_refl. }
    rewrite Hleave. simpl. split; [done|]. split.
    + apply roomExists_false, lookup_delete_eq.
    + intros now sid' name. rewrite joinRoom_fresh by apply lookup_delete_eq.
      apply lookup_insert_eq.
  - apply leaveRoom_absent_room.
  - intros room H Hget. unfold leaveRoom. rewrite H, Hget. simpl.
    rewrite (delete_absent _ _ Hget), set_users_id.
    destruct (JSMap.size (users room) =? 0)%Z eqn:Hs.
    + apply size_zero in Hs. by destruct (Hp roomId room H).
    + by rewrite insert_id.
Qed.

Definition solo_store : gmap string Room :=
  {["r" := {| sourceType := "torrent"; videoId := None; url := None;
              magnetURI := Some "magnet:?xt=urn:btih:abc";
              currentTime := 93.25%Q; isPlaying := true; lastUpdate := 1000;
              users := [("a", mkUser "Ann")] |}]}.

Lemma solo_store_populated : populated solo_store.
Proof. apply map_Forall_singleton. discriminate. Defined.

Lemma leave_last_then_rejoin_witness :
  roomExists "r" (snd (leaveRoom "r" "a" solo_store)) = false ∧
  snd (joinRoom 2000 "r" "b" (Some "Bob") (snd (leaveRoom "r" "a" solo_store)))
    !! "r" =
  Some {| sourceType := "youtube"; videoId := None; url := None;
          magnetURI := None; currentTime := 0%Q; isPlaying := false;
          lastUpdate := 2000; users := [("b", mkUser "Bob")] |}.
Proof.
  destruct (leave_last_then_rejoin solo_store "r" "a" solo_store_populated)
    as [Hlast _].
  destruct (Hlast _ (mkUser "Ann") (lookup_singleton_eq _ _) eq_refl)
    as [_ [Hgone Hfresh]].
  split; [exact Hgone|]. exact (Hfresh 2000%Z "b" (Some "Bob")).
Defined.

(** *** When [lastUpdate] is stamped *)

(** Room ["r"] is created at time 1000; a second user joins at time 2000,
    then the first one leaves. *)
Definition created : gmap string Room :=
  exec (JoinOp 1000 "r" "a" (Some "Ann")) ∅.
Definition joined : gmap string Room :=
  exec (JoinOp 2000 "r" "b" (Some "Bob")) created.
Definition left : gmap string Room := exec (LeaveOp "r" "a") joined.

(** C7, as stated, fails: the join into the existing room and the leave
    that keeps the room change its [users] and leave [lastUpdate] at 1000.
    So it is not the case that every join that changes a room stamps it with
    the time of the join. *)
Lemma join_leave_keep_lastUpdate :
  (created !! "r" =
     Some {| sourceType := "youtube"; videoId := None; url := None;
             magnetURI := None; currentTime := 0%Q; isPlaying := false;
             lastUpdate := 1000; users := [("a", mkUser "Ann")] |} ∧
   joined !! "r" =
     Some {| sourceType := "youtube"; videoId := None; url := None;
             magnetURI := None; currentTime := 0%Q; isPlaying := false;
             lastUpdate := 1000;
             users := [("a", mkUser "Ann"); ("b", mkUser "Bob")] |} ∧
   left !! "r" =
     Some {| sourceType := "youtube"; videoId := None; url := None;
             magnetURI := None; currentTime := 0%Q; isPlaying := false;
             lastUpdate := 1000; users := [("b", mkUser "Bob")] |}) ∧
  ¬ (∀ now roomId sid name (rooms : gmap string Room) room room',
       rooms !! roomId = Some room →
       exec (JoinOp now roomId sid name) rooms !! roomId = Some room' →
       users room' ≠ users room → lastUpdate room' = now).
Proof.
  assert (H0 : created !! "r" =
     Some {| sourceType := "youtube"; videoId := None; url := None;
             magnetURI := None; currentTime := 0%Q; isPlaying := false;
             lastUpdate := 1000; users := [("a", mkUser "Ann")] |})
    by (vm_compute; reflexivity).
  assert (H1 : joined !! "r" =
     Some {| sourceType := "youtube"; videoId := None; url := None;
             magnetURI := None; currentTime := 0%Q; isPlaying := false;
             lastUpdate := 1000;
             users := [("a", mkUser "Ann"); ("b", mkUser "Bob")] |})
    by (vm_compute; reflexivity).
  split; [split; [exact H0|split; [exact H1|vm_compute; reflexivity]]|].
  intros Hall.
  specialize (Hall 2000%Z "r" "b" (Some "Bob") created _ _ H0 H1).
  simpl in Hall. discriminate Hall. discriminate.
Qed.

(** C7, amended. An [updateRoom] on an existing room sets [lastUpdate] to the
    time of the call, also when it gives no field, and leaves the users
    alone. A join that creates the room stamps it with the time of the join,
    in any store, the empty one included. A join into an existing room and a
    leave that keeps the room change the [users] mapping and no other field,
    so they keep [lastUpdate]; a leave by the last user deletes the room. No
    operation touches another room, and the reads leave the whole store
    untouched. *)
Theorem lastUpdate_stamping (rooms : gmap string Room) (roomId : string) :
  (∀ room now updates, rooms !! roomId = Some room →
     ∃ room',
       exec (UpdateOp now roomId updates) rooms !! roomId = Some room' ∧
       lastUpdate room' = now ∧ users room' = users room) ∧
  (∀ now sid name, rooms !! roomId = None →
     exec (JoinOp now roomId sid name) rooms !! roomId =
       Some {| sourceType := "youtube"; videoId := None; url := None;
               magnetURI := None; currentTime := 0%Q; isPlaying := false;
               lastUpdate := now;
               users := [(sid, mkUser (or_default name "Guest"))] |}) ∧
  (∀ room now sid name, rooms !! roomId = Some room →
     exec (JoinOp now roomId sid name) rooms !! roomId =
       Some {| sourceType := sourceType room; videoId := videoId room;
               url := url room; magnetURI := magnetURI room;
               currentTime := currentTime room; isPlaying := isPlaying room;
               lastUpdate := lastUpdate room;
               users := JSMap.set sid (mkUser (or_default name "Guest"))
                                  (users room) |}) ∧
  (∀ room sid, rooms !! roomId = Some room →
     exec (LeaveOp roomId sid) rooms !! roomId =
       if (JSMap.size (JSMap.delete sid (users room)) =? 0)%Z then None
       else
         Some {| sourceType := sourceType room; videoId := videoId room;
                 url := url room; magnetURI := magnetURI room;
                 currentTime := currentTime room;
                 isPlaying := isPlaying room;
                 lastUpdate := lastUpdate room;
                 users := JSMap.delete sid (users room) |}) ∧
  (∀ op r, r ≠ target op → exec op rooms !! r = rooms !! r) ∧
  (∀ op, is_read op = true → exec op rooms = rooms).
Proof.
  split; [|split; [|split; [|split; [|split]]]].
  - intros room now updates H. simpl. unfold updateRoom. rewrite H. simpl.
    eexists. split; [apply lookup_insert_eq|done].
  - intros now sid name H. simpl. rewrite joinRoom_fresh by done.
    apply lookup_insert_eq.
  - intros room now sid name H. simpl.
    rewrite (joinRoom_existing _ _ _ _ _ _ H). simpl.
    apply lookup_insert_eq.
  - intros room sid H. simpl. unfold leaveRoom. rewrite H. simpl.
    destruct (_ =? _)%Z; simpl.
    + apply lookup_delete_eq.
    + apply lookup_insert_eq.
  - intros op r Hne. by apply exec_other.
  - intros op Hop. by destruct op.
Qed.

Lemma lastUpdate_stamping_witness :
  exec (JoinOp 1000 "r" "a" (Some "Ann")) ∅ !! "r" =
    Some {| sourceType := "youtube"; videoId := None; url := None;
            magnetURI := None; currentTime := 0%Q; isPlaying := false;
            lastUpdate := 1000; users := [("a", mkUser "Ann")] |} ∧
  ∃ room',
    exec (UpdateOp 7000 "r" (mkUpdates None None None None None None))
         solo_store !! "r" = Some room' ∧
    lastUpdate room' = 7000%Z ∧ users room' = [("a", mkUser "Ann")].
Proof.
  split.
  - exact (proj1 (proj2 (lastUpdate_stamping ∅ "r")) 1000%Z "a" (Some "Ann")
             (lookup_empty _)).
  - exact (proj1 (lastUpdate_stamping solo_store "r") _ 7000%Z
             (mkUpdates None None None None None None)
             (lookup_singleton_eq _ _)).
Defined.

End RoomsFacts.

(** ** Broadcast routing, source changes and the placeholder participant *)

Module ServerFacts.
Import Rooms Server JSMapFacts RoomsFacts.

Lemma members_socket_join sid r st rooms' socks' :
  members r (mkState rooms' (socket_join sid r (adapter st)) socks') =
  {[sid]} ∪ members r st.
Proof. unfold members, socket_join. simpl. by rewrite lookup_insert_eq. Qed.


(** *** Source change *)

(** C3. A video-change on an existing room stores the new source (missing
    or empty fields as [null], a missing type as ["youtube"]) together with
    position 0 and the paused flag in one transition. Every snapshot taken
    after it shows the new source at position 0, paused, whenever it is
    taken; the only states a snapshot can be taken from are the one before
    the handler and the one after it. *)
Theorem source_change_atomic (clk : Clock) (sid roomId : string)
    (sourceType0 videoId0 url0 magnetURI0 : option string)
    (st : State) (room : Room) :
  rooms st !! roomId = Some room →
  let i := VideoChangeIn sid roomId sourceType0 videoId0 url0 magnetURI0 in
  let st' := fst (step clk i st) in
  let snapshot :=
    {| rs_sourceType := or_default sourceType0 "youtube";
       rs_videoId := or_null videoId0; rs_url := or_null url0;
       rs_magnetURI := or_null magnetURI0;
       rs_currentTime := 0%Q; rs_isPlaying := false;
       rs_userCount := JSMap.size (users room);
       rs_users := getUsersList roomId (rooms st) |} in
  rooms st' !! roomId =
    Some {| sourceType := or_default sourceType0 "youtube";
            videoId := or_null videoId0; url := or_null url0;
            magnetURI := or_null magnetURI0;
            currentTime := 0%Q; isPlaying := false;
            lastUpdate := at_updateRoom clk; users := users room |} ∧
  (∀ now, getRoomState now roomId (rooms st') = Some snapshot) ∧
  run [(clk, i)] st = [st; st'] ∧
  (∀ s now, s ∈ run [(clk, i)] st →
     getRoomState now roomId (rooms s) = getRoomState now roomId (rooms st) ∨
     getRoomState now roomId (rooms s) = Some snapshot).
Proof.
  intros H i st' snapshot.
  assert (Hst' : rooms st' =
    <[roomId := {| sourceType := or_default sourceType0 "youtube";
                   videoId := or_null videoId0; url := or_null url0;
                   magnetURI := or_null magnetURI0;
                   currentTime := 0%Q; isPlaying := false;
                   lastUpdate := at_updateRoom clk;
                   users := users room |}]> (rooms st)).
  { subst st' i. simpl. unfold on_video_change, updateRoom. by rewrite H. }
  assert (Hsnap : ∀ now, getRoomState now roomId (rooms st') = Some snapshot).
  { intros now. subst snapshot. unfold getRoomState, getUsersList.
    rewrite Hst', lookup_insert_eq, H. reflexivity. }
  split; [by rewrite Hst', lookup_insert_eq|].
  split; [exact Hsnap|]. split; [reflexivity|].
  intros s now Hs. simpl in Hs.
  apply elem_of_cons in Hs as [->|Hs]; [by left|].
  apply list_elem_of_singleton in Hs as ->. right. apply Hsnap.
Qed.

Definition watching : State :=
  mkState
    {["r" := {| sourceType := "youtube"; videoId := Some "dQw4w9WgXcQ";
                url := None; magnetURI := None; currentTime := 42.5%Q;
                isPlaying := true; lastUpdate := 1000;
                users := [("a", mkUser "Ann"); ("b", mkUser "Bob")] |}]}
    {["r" := {["a"; "b"]}]} ∅.

Lemma source_change_atomic_witness :
  getRoomState 99000 "r"
    (rooms (fst (step (mkClock 0 5000 0 0)
                      (VideoChangeIn "a" "r" (Some "url") None
                         (Some "http://h/v.mp4") None) watching))) =
  Some {| rs_sourceType := "url"; rs_videoId := None;
          rs_url := Some "http://h/v.mp4"; rs_magnetURI := None;
          rs_currentTime := 0%Q; rs_isPlaying := false; rs_userCount := 2;
          rs_users := [mkUserEntry "a" "Ann"; mkUserEntry "b" "Bob"] |}.
Proof.
  destruct (source_change_atomic (mkClock 0 5000 0 0) "a" "r" (Some "url") None
              (Some "http://h/v.mp4") None watching _
              (lookup_singleton_eq _ _)) as [_ [Hsnap _]].
  rewrite (Hsnap 99000%Z). vm_compute. reflexivity.
Defined.

(** *** The placeholder participant *)

Definition holds_placeholder (roomId : string) (rooms : gmap string Room)
  : Prop :=
  ∃ room, rooms !! roomId = Some room ∧
          is_Some (JSMap.get placeholder (users room)).

Lemma holds_placeholder_exists roomId rooms :
  holds_placeholder roomId rooms → roomExists roomId rooms = true.
Proof. intros (room & H & _). apply roomExists_true. by exists room. Qed.

(** Only [leaveRoom(roomId, "__placeholder__")] can take the placeholder out
    of room [roomId]. *)
Lemma holds_placeholder_exec roomId op rooms :
  op ≠ LeaveOp roomId placeholder →
  holds_placeholder roomId rooms → holds_placeholder roomId (exec op rooms).
Proof.
  intros Hop (room & H & Hph).
  destruct (decide (roomId = target op)) as [Heq|Hne];
    [|exists room; by rewrite exec_other].
  destruct op as [now r sid name|r sid|now r upd| | |]; simpl in Heq; subst;
    simpl; try (by exists room).
  - rewrite (joinRoom_existing _ _ _ _ _ _ H). simpl.
    eexists. split; [apply lookup_insert_eq|]. simpl.
    destruct (decide (sid = placeholder)) as [->|Hsid].
    + rewrite get_set_eq. by eexists.
    + by rewrite get_set_ne.
  - assert (Hsid : sid ≠ placeholder) by congruence.
    unfold leaveRoom. rewrite H. simpl.
    assert (Hget : is_Some (JSMap.get placeholder
                              (JSMap.delete sid (users room)))).
    { by rewrite get_delete_ne. }
    destruct (JSMap.size _ =? 0)%Z eqn:Hs; simpl.
    + apply size_zero in Hs. rewrite Hs in Hget. by destruct Hget.
    + eexists. split; [apply lookup_insert_eq|done].
  - unfold updateRoom. rewrite H. simpl.
    eexists. split; [apply lookup_insert_eq|done].
Qed.

(** The socket an input comes from. *)
Definition sender (i : Input) : option string :=
  match i with
  | Connect sid | JoinRoom sid _ _ | VideoChangeIn sid _ _ _ _ _
  | PlayIn sid _ _ | PauseIn sid _ _ | SeekIn sid _ _
  | SendMessage sid _ _ | Disconnect sid => Some sid
  | PostRooms _ => None
  end.

Definition joins (roomId : string) (i : Input) : Prop :=
  match i with
  | JoinRoom _ r _ => r = roomId
  | _ => False
  end.

(** The store after a handler, as store operations. *)
Lemma post_rooms_store clk roomId st :
  rooms (post_rooms clk roomId st) =
  exec (JoinOp (at_createRoom clk) roomId placeholder (Some "__system__"))
       (rooms st).
Proof. unfold post_rooms. simpl. by destruct (joinRoom _ _ _ _ _). Qed.

Lemma on_join_room_store clk sid roomId name st :
  rooms (fst (on_join_room clk sid roomId name st)) =
  exec (JoinOp (at_createRoom clk) roomId sid (Some (or_default name "Guest")))
       (exec (LeaveOp roomId placeholder) (rooms st)).
Proof.
  unfold on_join_room. simpl.
  destruct (leaveRoom _ _ _) as [res rooms1]. simpl.
  by destruct (joinRoom _ _ _ _ _).
Qed.

Lemma on_disconnect_store clk sid st :
  rooms (fst (on_disconnect clk sid st)) = rooms st ∨
  ∃ r, rooms (fst (on_disconnect clk sid st)) = exec (LeaveOp r sid) (rooms st).
Proof.
  unfold on_disconnect. destruct (sock_attr _ _ _) as [r|]; [|by left].
  destruct (truthy _); [|by left]. right. exists r. simpl.
  destruct (leaveRoom _ _ _) as [res rooms1]. simpl.
  by destruct (_ <? _)%Z.
Qed.

Definition source_update (sourceType videoId url magnetURI : option string)
  : Updates :=
  {| u_sourceType := Some (or_default sourceType "youtube");
     u_videoId := Some (or_null videoId); u_url := Some (or_null url);
     u_magnetURI := Some (or_null magnetURI);
     u_currentTime := Some 0%Q; u_isPlaying := Some false |}.

Lemma on_video_change_store clk sid r sourceType videoId url magnetURI st :
  rooms (fst (on_video_change clk sid r sourceType videoId url magnetURI st)) =
  exec (UpdateOp (at_updateRoom clk) r
          (source_update sourceType videoId url magnetURI)) (rooms st).
Proof.
  unfold on_video_change, source_update. simpl.
  by destruct (updateRoom _ _ _ _).
Qed.

Lemma on_play_store clk sid r t st :
  rooms (fst (on_play clk sid r t st)) =
  exec (UpdateOp (at_updateRoom clk) r (playback_update t true)) (rooms st).
Proof. unfold on_play. simpl. by destruct (updateRoom _ _ _ _). Qed.

Lemma on_pause_store clk sid r t st :
  rooms (fst (on_pause clk sid r t st)) =
  exec (UpdateOp (at_updateRoom clk) r (playback_update t false)) (rooms st).
Proof. unfold on_pause. simpl. by destruct (updateRoom _ _ _ _). Qed.

Lemma on_seek_store clk sid r t st :
  ∃ playing,
    rooms (fst (on_seek clk sid r t st)) =
    exec (UpdateOp (at_updateRoom clk) r (playback_update t playing)) (rooms st).
Proof.
  exists (default false
            (rs_isPlaying <$> getRoomState (at_getRoomState clk) r (rooms st))).
  unfold on_seek. simpl. by destruct (updateRoom _ _ _ _).
Qed.

Lemma holds_placeholder_step roomId clk i st :
  ¬ joins roomId i → sender i ≠ Some placeholder →
  holds_placeholder roomId (rooms st) →
  holds_placeholder roomId (rooms (fst (step clk i st))).
Proof.
  intros Hj Hs Hph.
  destruct i as [sid|r|sid r name|sid r sT vid u mag|sid r t|sid r t|sid r t
                |sid r text|sid]; simpl in *; try done.
  - rewrite post_rooms_store. by apply holds_placeholder_exec.
  - rewrite on_join_room_store.
    apply holds_placeholder_exec; [done|].
    apply holds_placeholder_exec; [|done]. intros [= ->]. by apply Hj.
  - rewrite on_video_change_store. by apply holds_placeholder_exec.
  - rewrite on_play_store. by apply holds_placeholder_exec.
  - rewrite on_pause_store. by apply holds_placeholder_exec.
  - destruct (on_seek_store clk sid r t st) as [playing ->].
    by apply holds_placeholder_exec.
  - destruct (on_disconnect_store clk sid st) as [->|[r ->]]; [done|].
    apply holds_placeholder_exec; [congruence|done].
Qed.

(** Every state the server reaches has only populated rooms. *)
Lemma populated_step clk i st :
  populated (rooms st) → populated (rooms (fst (step clk i st))).
Proof.
  intros Hp.
  destruct i as [sid|r|sid r name|sid r sT vid u mag|sid r t|sid r t|sid r t
                |sid r text|sid]; simpl; try done.
  - rewrite post_rooms_store. by apply populated_exec.
  - rewrite on_join_room_store. by do 2 apply populated_exec.
  - rewrite on_video_change_store. by apply populated_exec.
  - rewrite on_play_store. by apply populated_exec.
  - rewrite on_pause_store. by apply populated_exec.
  - destruct (on_seek_store clk sid r t st) as [playing ->].
    by apply populated_exec.
  - destruct (on_disconnect_store clk sid st) as [->|[r ->]]; [done|].
    by apply populated_exec.
Qed.

Lemma populated_run ins :
  Forall (fun st => populated (rooms st)) (run ins initial).
Proof.
  assert (H : ∀ st, populated (rooms st) →
                    Forall (fun st => populated (rooms st)) (run ins st)).
  { induction ins as [|[clk i] ins IH]; intros st Hp; simpl.
    - constructor; [done|constructor].
    - constructor; [done|]. by apply IH, populated_step. }
  apply H, populated_empty.
Qed.

Lemma users_list_payload_clean roomId rooms u :
  u ∈ users_list_payload roomId rooms → ue_socketId u ≠ placeholder.
Proof.
  unfold users_list_payload. intros Hu.
  by apply list_elem_of_filter in Hu as [Hu _].
Qed.

Lemma users_list_clean clk i st e l u :
  e ∈ snd (step clk i st) → message e = UsersList l → u ∈ l →
  ue_socketId u ≠ placeholder.
Proof.
  intros He Hm Hu.
  assert (Hb : ∀ r s, e = broadcastUsersList r s → ue_socketId u ≠ placeholder).
  { intros r s ->. simpl in Hm. injection Hm as <-.
    by apply users_list_payload_clean in Hu. }
  destruct i; simpl in He.
  - by apply elem_of_nil in He.
  - by apply elem_of_nil in He.
  - unfold on_join_room in He.
    destruct (leaveRoom _ _ _) as [res rooms1].
    destruct (joinRoom _ _ _ _ _) as [room rooms2]. simpl in He.
    repeat (apply elem_of_cons in He as [->|He]; [try discriminate Hm|]).
    + by eapply Hb.
    + by apply elem_of_nil in He.
  - unfold on_video_change in He. destruct (updateRoom _ _ _ _). simpl in He.
    apply list_elem_of_singleton in He as ->. discriminate Hm.
  - unfold on_play in He. destruct (updateRoom _ _ _ _). simpl in He.
    apply list_elem_of_singleton in He as ->. discriminate Hm.
  - unfold on_pause in He. destruct (updateRoom _ _ _ _). simpl in He.
    apply list_elem_of_singleton in He as ->. discriminate Hm.
  - unfold on_seek in He. destruct (updateRoom _ _ _ _). simpl in He.
    apply list_elem_of_singleton in He as ->. discriminate Hm.
  - apply list_elem_of_singleton in He as ->. discriminate Hm.
  - unfold on_disconnect in He.
    destruct (sock_attr _ _ _) as [r|]; [|by apply elem_of_nil in He].
    destruct (truthy _); [|by apply elem_of_nil in He].
    destruct (leaveRoom _ _ _) as [res rooms1].
    destruct (_ <? _)%Z; simpl in He; [|by apply elem_of_nil in He].
    repeat (apply elem_of_cons in He as [->|He]; [try discriminate Hm|]).
    + by eapply Hb.
    + by apply elem_of_nil in He.
Qed.

(** C10. POST /api/rooms registers the participant ["__placeholder__"] named
    ["__system__"], so the room exists and is not empty. The placeholder, and
    with it the room, stays through every input that is not a join of that
    room (no socket has the placeholder's id). A join of the room by a real
    socket leaves the room with the joiner registered and without the
    placeholder. No users-list event ever carries the placeholder. *)
Theorem placeholder_lifecycle (clk : Clock) (roomId : string) (st : State) :
  (roomExists roomId (rooms (post_rooms clk roomId st)) = true ∧
   ∃ room, rooms (post_rooms clk roomId st) !! roomId = Some room ∧
           JSMap.get placeholder (users room) = Some (mkUser "__system__") ∧
           users room ≠ []) ∧
  (∀ ins,
     Forall (fun ci => ¬ joins roomId (snd ci) ∧
                       sender (snd ci) ≠ Some placeholder) ins →
     holds_placeholder roomId (rooms st) →
     Forall (fun s => holds_placeholder roomId (rooms s) ∧
                      roomExists roomId (rooms s) = true) (run ins st)) ∧
  (∀ sid name, sid ≠ placeholder →
     ∃ room', rooms (fst (step clk (JoinRoom sid roomId name) st)) !! roomId =
                Some room' ∧
              JSMap.get placeholder (users room') = None ∧
              JSMap.get sid (users room') =
                Some (mkUser (or_default name "Guest"))) ∧
  (∀ i e l u, e ∈ snd (step clk i st) → message e = UsersList l → u ∈ l →
     ue_socketId u ≠ placeholder).
Proof.
  split; [|split; [|split]].
  - assert (Hroom : ∃ room,
              rooms (post_rooms clk roomId st) !! roomId = Some room ∧
              JSMap.get placeholder (users room) = Some (mkUser "__system__") ∧
              users room ≠ []).
    { rewrite post_rooms_store. simpl. unfold joinRoom, createRoom.
      destruct (rooms st !! roomId) as [room|]; simpl;
        (eexists; split; [apply lookup_insert_eq|]); simpl.
      - split; [apply get_set_eq|apply set_nonempty].
      - done. }
    split; [|exact Hroom]. destruct Hroom as (room & H & _).
    apply roomExists_true. by exists room.
  - intros ins. revert st. induction ins as [|[c i] ins IH]; intros st Hins Hph.
    + simpl. repeat constructor; [done|by apply holds_placeholder_exists].
    + apply Forall_cons in Hins as [[Hj Hs] Hins]. simpl.
      constructor; [split; [done|by apply holds_placeholder_exists]|].
      apply IH; [done|]. by apply holds_placeholder_step.
  - intros sid name Hsid. cbn [step]. rewrite on_join_room_store.
    cbn [exec]. unfold leaveRoom.
    destruct (rooms st !! roomId) as [room|] eqn:H; cbn [snd].
    + destruct (JSMap.size _ =? 0)%Z eqn:Hs; cbn [snd].
      * rewrite joinRoom_fresh by apply lookup_delete_eq.
        eexists. split; [apply lookup_insert_eq|]. cbn [users].
        rewrite or_default_Guest.
        split; [by apply get_singleton_ne|apply get_singleton_eq].
      * erewrite joinRoom_existing by apply lookup_insert_eq. cbn [snd].
        eexists. split; [apply lookup_insert_eq|]. cbn [users set_users].
        rewrite or_default_Guest, get_set_ne by done.
        by rewrite get_delete_eq, get_set_eq.
    + rewrite joinRoom_fresh by done.
      eexists. split; [apply lookup_insert_eq|]. cbn [users].
      rewrite or_default_Guest.
      split; [by apply get_singleton_ne|apply get_singleton_eq].
  - intros i e l u. apply users_list_clean.
Qed.

(** A room pre-created through the endpoint, then joined by socket ["s1"]. *)
Lemma placeholder_lifecycle_witness :
  roomExists "ab12cd34" (rooms (post_rooms (mkClock 1000 0 0 0) "ab12cd34" initial))
    = true ∧
  ∃ room',
    rooms (fst (step (mkClock 1000 0 0 0) (JoinRoom "s1" "ab12cd34" (Some "Ann"))
                     (post_rooms (mkClock 1000 0 0 0) "ab12cd34" initial)))
      !! "ab12cd34" = Some room' ∧
    JSMap.get placeholder (users room') = None ∧
    JSMap.get "s1" (users room') = Some (mkUser "Ann").
Proof.
  split.
  - exact (proj1 (proj1 (placeholder_lifecycle (mkClock 1000 0 0 0)
                           "ab12cd34" initial))).
  - destruct (placeholder_lifecycle (mkClock 1000 0 0 0) "ab12cd34"
                (post_rooms (mkClock 1000 0 0 0) "ab12cd34" initial))
      as [_ [_ [Hjoin _]]].
    apply (Hjoin "s1" (Some "Ann")). discriminate.
Defined.

End ServerFacts.

(** ** Channels and store agree on who is in a room *)

Module Sync.
Import Rooms Server JSMapFacts RoomsFacts ServerFacts.

Lemma keys_set {V} (m : JSMap.t V) k v :
  list_to_set (JSMap.keys (JSMap.set k v m)) =@{gset string}
  {[k]} ∪ list_to_set (JSMap.keys m).
Proof.
  induction m as [|[k' v'] m IH]; simpl; [done|].
  destruct (String.eqb_spec k k') as [->|]; simpl.
  - set_solver.
  - rewrite IH. set_solver.
Qed.

Lemma keys_delete {V} (m : JSMap.t V) k :
  list_to_set (JSMap.keys (JSMap.delete k m)) =@{gset string}
  list_to_set (JSMap.keys m) ∖ {[k]}.
Proof.
  induction m as [|[k' v'] m IH]; simpl; [set_solver|].
  destruct (String.eqb_spec k k') as [->|]; simpl.
  - fold (JSMap.delete k' m). rewrite IH. set_solver.
  - fold (JSMap.delete k m). rewrite IH. set_solver.
Qed.

(** The sockets registered in a room of the store, the placeholder apart. *)
Definition participants (r : string) (rooms : gmap string Room) : gset string :=
  match rooms !! r with
  | Some room => list_to_set (JSMap.keys (users room)) ∖ {[placeholder]}
  | None => ∅
  end.

Lemma participants_no_placeholder r rooms : placeholder ∉ participants r rooms.
Proof. unfold participants. destruct (rooms !! r); set_solver. Qed.

Lemma participants_other op rooms r :
  r ≠ target op → participants r (exec op rooms) = participants r rooms.
Proof. intros H. unfold participants. by rewrite exec_other. Qed.

Lemma participants_join now r sid name rooms :
  participants r (exec (JoinOp now r sid name) rooms) =
  ({[sid]} ∪ participants r rooms) ∖ {[placeholder]}.
Proof.
  unfold participants. simpl.
  destruct (rooms !! r) as [room|] eqn:H.
  - rewrite (joinRoom_existing _ _ _ _ _ _ H). simpl.
    rewrite lookup_insert_eq. simpl. rewrite keys_set. set_solver.
  - rewrite joinRoom_fresh by done. rewrite lookup_insert_eq. simpl.
    set_solver.
Qed.

Lemma participants_leave r sid rooms :
  participants r (exec (LeaveOp r sid) rooms) = participants r rooms ∖ {[sid]}.
Proof.
  unfold participants. simpl. unfold leaveRoom.
  destruct (rooms !! r) as [room|] eqn:H; simpl; [|rewrite H; set_solver].
  pose proof (keys_delete (users room) sid) as Hk.
  destruct (JSMap.size _ =? 0)%Z eqn:Hs; simpl.
  - rewrite lookup_delete_eq. apply size_zero in Hs. rewrite Hs in Hk.
    simpl in Hk. set_solver.
  - rewrite lookup_insert_eq. simpl. rewrite Hk. set_solver.
Qed.

Lemma participants_update now r' upd rooms r :
  participants r (exec (UpdateOp now r' upd) rooms) = participants r rooms.
Proof.
  destruct (decide (r = r')) as [->|Hne]; [|by apply participants_other].
  unfold participants. simpl. unfold updateRoom.
  destruct (rooms !! r') as [room|] eqn:H; simpl; [|by rewrite H].
  by rewrite lookup_insert_eq.
Qed.

Lemma members_disconnect r sid st rooms' socks' :
  members r (mkState rooms'
               ((fun m : gset string => m ∖ {[sid]}) <$> adapter st) socks') =
  members r st ∖ {[sid]}.
Proof.
  unfold members. simpl. rewrite lookup_fmap.
  destruct (adapter st !! r); simpl; set_solver.
Qed.

Lemma members_join_other sid r r' st rooms' socks' :
  r' ≠ r →
  members r' (mkState rooms' (socket_join sid r (adapter st)) socks') =
  members r' st.
Proof.
  intros Hne. unfold members, socket_join. simpl.
  by rewrite lookup_insert_ne.
Qed.

Section Discipline.
(** The names used for rooms; socket ids are other strings. *)
Variable room_id : string → Prop.

(** The inputs of a well-behaved run: sockets connect once under an id
    that is no room name, and join one room, once. *)
Definition admissible (i : Input) (st : State) : Prop :=
  match i with
  | Connect sid =>
      ¬ room_id sid ∧ sid ≠ placeholder ∧ sockets st !! sid = None
  | JoinRoom sid r _ =>
      room_id r ∧ r ≠ EmptyString ∧ is_Some (sockets st !! sid) ∧
      sock_attr sock_roomId sid st = None
  | _ => True
  end.

(** The channel of every room holds the sockets registered in the room. *)
Record in_sync (st : State) : Prop := {
  sync_members : ∀ r, room_id r → members r st = participants r (rooms st);
  sync_joined : ∀ r sid, room_id r → sid ∈ participants r (rooms st) →
                sock_attr sock_roomId sid st = Some r;
  sync_ids : ∀ sid, is_Some (sockets st !! sid) →
             ¬ room_id sid ∧ sid ≠ placeholder;
  sync_names : ∀ sid r, sock_attr sock_roomId sid st = Some r →
               room_id r ∧ r ≠ EmptyString
}.

Lemma in_sync_initial : in_sync initial.
Proof.
  split.
  - intros r _. unfold members, participants, initial. simpl.
    by rewrite !lookup_empty.
  - intros r sid _. unfold participants, initial. simpl.
    rewrite lookup_empty. set_solver.
  - intros sid [s Hs]. unfold initial in Hs. simpl in Hs.
    by rewrite lookup_empty in Hs.
  - intros sid r. unfold sock_attr, initial. simpl. by rewrite lookup_empty.
Qed.

(** A handler that only updates room fields keeps the invariant. *)
Lemma in_sync_update st now r upd :
  in_sync st →
  in_sync (mkState (exec (UpdateOp now r upd) (rooms st)) (adapter st)
                   (sockets st)).
Proof.
  intros [Hm Hj Hi Hn]. split; cbn [rooms].
  - intros r' Hr'. rewrite participants_update. by apply Hm.
  - intros r' sid Hr'. rewrite participants_update. by apply Hj.
  - done.
  - done.
Qed.

Lemma in_sync_ext st st' :
  rooms st' = rooms st → adapter st' = adapter st → sockets st' = sockets st →
  in_sync st → in_sync st'.
Proof.
  destruct st, st'. simpl. by intros -> -> ->.
Qed.

Lemma in_sync_rooms_update st st' now r upd :
  rooms st' = exec (UpdateOp now r upd) (rooms st) →
  adapter st' = adapter st → sockets st' = sockets st →
  in_sync st → in_sync st'.
Proof.
  intros Hr Ha Hs Hsync.
  apply (in_sync_ext
           (mkState (exec (UpdateOp now r upd) (rooms st)) (adapter st)
                    (sockets st))); [done|done|done|].
  by apply in_sync_update.
Qed.

Lemma in_sync_step clk i st :
  in_sync st → admissible i st → in_sync (fst (step clk i st)).
Proof.
  intros Hsync Hadm.
  destruct i as [sid|r|sid r name|sid r sT vid u mag|sid r t|sid r t|sid r t
                |sid r text|sid]; simpl in *.
  - (* connect *)
    destruct Hadm as (Hnr & Hph & Hfresh). destruct Hsync as [Hm Hj Hi Hn].
    unfold on_connection. split; simpl.
    + intros r Hr. rewrite <- Hm by done. apply members_join_other.
      by intros ->.
    + intros r s Hr Hs. unfold sock_attr. simpl.
      pose proof (Hj r s Hr Hs) as Hold. unfold sock_attr in Hold.
      destruct (decide (s = sid)) as [->|Hne].
      * by rewrite Hfresh in Hold.
      * by rewrite lookup_insert_ne.
    + intros s Hs. destruct (decide (s = sid)) as [->|Hne]; [done|].
      rewrite lookup_insert_ne in Hs by done. by apply Hi.
    + intros s r. unfold sock_attr. simpl.
      destruct (decide (s = sid)) as [->|Hne].
      * by rewrite lookup_insert_eq.
      * rewrite lookup_insert_ne by done. apply Hn.
  - (* POST /api/rooms *)
    destruct Hsync as [Hm Hj Hi Hn].
    assert (Hp : ∀ r', participants r' (rooms (post_rooms clk r st)) =
                       participants r' (rooms st)).
    { intros r'. rewrite post_rooms_store.
      destruct (decide (r' = r)) as [->|Hne];
        [|by apply participants_other].
      rewrite participants_join.
      pose proof (participants_no_placeholder r (rooms st)). set_solver. }
    split.
    + intros r' Hr'. rewrite Hp, <- Hm by done. unfold post_rooms, members.
      by destruct (joinRoom _ _ _ _ _).
    + intros r' s Hr'. rewrite Hp. intros Hs.
      pose proof (Hj r' s Hr' Hs) as Hold.
      unfold post_rooms, sock_attr in *. by destruct (joinRoom _ _ _ _ _).
    + intros s. unfold post_rooms. destruct (joinRoom _ _ _ _ _). apply Hi.
    + intros s r'. unfold post_rooms, sock_attr.
      destruct (joinRoom _ _ _ _ _). apply Hn.
  - (* join-room *)
    destruct Hadm as (Hr & Hne & Hconn & Hnone).
    destruct Hsync as [Hm Hj Hi Hn].
    destruct (Hi sid Hconn) as [Hsid Hph].
    assert (Hp : participants r (rooms (fst (on_join_room clk sid r name st)))
                 = {[sid]} ∪ participants r (rooms st)).
    { rewrite on_join_room_store, participants_join, participants_leave.
      unfold participants. destruct (rooms st !! r); set_solver. }
    assert (Hp' : ∀ r', r' ≠ r →
              participants r' (rooms (fst (on_join_room clk sid r name st)))
              = participants r' (rooms st)).
    { intros r' Hr'. rewrite on_join_room_store.
      rewrite participants_other by done. by rewrite participants_other. }
    unfold on_join_room in *.
    destruct (leaveRoom _ _ _) as [res rooms1].
    destruct (joinRoom _ _ _ _ _) as [room rooms2]. simpl in *.
    split; simpl.
    + intros r' Hr'. destruct (decide (r' = r)) as [->|Hne'].
      * rewrite Hp, members_socket_join. by rewrite Hm.
      * rewrite Hp' by done. rewrite members_join_other by done. by apply Hm.
    + intros r' s Hr' Hs. unfold sock_attr. simpl.
      destruct (decide (s = sid)) as [->|Hne'].
      * rewrite lookup_insert_eq. simpl.
        destruct (decide (r' = r)) as [->|Hne'']; [done|].
        rewrite Hp' in Hs by done. pose proof (Hj r' sid Hr' Hs). congruence.
      * rewrite lookup_insert_ne by done. apply Hj; [done|].
        destruct (decide (r' = r)) as [->|Hne''].
        -- rewrite Hp in Hs. set_solver.
        -- by rewrite Hp' in Hs.
    + intros s Hs. destruct (decide (s = sid)) as [->|Hne']; [done|].
      rewrite lookup_insert_ne in Hs by done. by apply Hi.
    + intros s r'. unfold sock_attr. simpl.
      destruct (decide (s = sid)) as [->|Hne'].
      * rewrite lookup_insert_eq. simpl. by intros [= <-].
      * rewrite lookup_insert_ne by done. apply Hn.
  - eapply in_sync_rooms_update; [apply on_video_change_store| | |done];
      unfold on_video_change; by destruct (updateRoom _ _ _ _).
  - eapply in_sync_rooms_update; [apply on_play_store| | |done];
      unfold on_play; by destruct (updateRoom _ _ _ _).
  - eapply in_sync_rooms_update; [apply on_pause_store| | |done];
      unfold on_pause; by destruct (updateRoom _ _ _ _).
  - destruct (on_seek_store clk sid r t st) as [playing Hstore].
    eapply in_sync_rooms_update; [apply Hstore| | |done];
      unfold on_seek; by destruct (updateRoom _ _ _ _).
  - done.
  - (* disconnect *)
    destruct Hsync as [Hm Hj Hi Hn].
    assert (Hout : ∀ r', room_id r' → sock_attr sock_roomId sid st ≠ Some r' →
                         sid ∉ participants r' (rooms st)).
    { intros r' Hr' Hattr Hin. by apply Hattr, Hj. }
    assert (Hgoal : ∀ rooms',
      (∀ r', room_id r' →
             participants r' rooms' = participants r' (rooms st) ∖ {[sid]}) →
      in_sync (mkState rooms'
                 ((fun m : gset string => m ∖ {[sid]}) <$> adapter st)
                 (delete sid (sockets st)))).
    { intros rooms' Hp. split; simpl.
      - intros r' Hr'. rewrite members_disconnect, Hp by done.
        by rewrite Hm.
      - intros r' s Hr'. rewrite Hp by done. intros Hs.
        apply elem_of_difference in Hs as [Hs Hne].
        unfold sock_attr. simpl. rewrite lookup_delete_ne by set_solver.
        by apply Hj.
      - intros s Hs. apply Hi.
        destruct (decide (s = sid)) as [->|Hne].
        + rewrite lookup_delete_eq in Hs. by destruct Hs.
        + by rewrite lookup_delete_ne in Hs.
      - intros s r'. unfold sock_attr. simpl.
        destruct (decide (s = sid)) as [->|Hne].
        + by rewrite lookup_delete_eq.
        + rewrite lookup_delete_ne by done. apply Hn. }
    unfold on_disconnect.
    destruct (sock_attr sock_roomId sid st) as [r|] eqn:Hattr.
    + destruct (Hn sid r Hattr) as [Hr Hne].
      assert (Htruthy : truthy (Some r) = true).
      { simpl. by destruct (String.eqb_spec r EmptyString). }
      rewrite Htruthy.
      assert (Hp : ∀ r', room_id r' →
                participants r' (exec (LeaveOp r sid) (rooms st)) =
                participants r' (rooms st) ∖ {[sid]}).
      { intros r' Hr'. destruct (decide (r' = r)) as [->|Hne'].
        - apply participants_leave.
        - rewrite participants_other by done.
          assert (sid ∉ participants r' (rooms st)); [|set_solver].
          apply Hout; [done|]. congruence. }
      simpl in Hp. destruct (leaveRoom r sid (rooms st)) as [res rooms1].
      simpl in Hp. destruct (0 <? remaining res)%Z; simpl; by apply Hgoal.
    + simpl. apply Hgoal. intros r' Hr'.
      assert (sid ∉ participants r' (rooms st)); [|set_solver].
      by apply Hout.
Qed.

(** The inputs of a run are admissible one after the other. *)
Fixpoint admissible_run (ins : list (Clock * Input)) (st : State) : Prop :=
  match ins with
  | [] => True
  | (clk, i) :: ins' =>
      admissible i st ∧ admissible_run ins' (fst (step clk i st))
  end.

Lemma in_sync_run ins st :
  in_sync st → admissible_run ins st → Forall in_sync (run ins st).
Proof.
  revert st. induction ins as [|[clk i] ins IH]; intros st Hsync Hadm; simpl.
  - constructor; [done|constructor].
  - destruct Hadm as [Hi Hrest]. constructor; [done|].
    apply IH; [by apply in_sync_step|done].
Qed.

End Discipline.
End Sync.

(** ** Broadcast routing *)

Module Routing.
Import Rooms Server ServerFacts Sync.

(** The playback and source events, with their sender, their room and the
    message relayed for them. *)
Definition relayed (i : Input) : option (string * string * Message) :=
  match i with
  | PlayIn sid r t => Some (sid, r, Play t)
  | PauseIn sid r t => Some (sid, r, Pause t)
  | SeekIn sid r t => Some (sid, r, Seek t)
  | VideoChangeIn sid r sourceType videoId url magnetURI =>
      Some (sid, r, VideoChange sourceType videoId url magnetURI)
  | _ => None
  end.


(** A room created through the endpoint and joined by three sockets. *)
Definition tick (n : Z) : Clock := mkClock n n n n.

Definition party : list (Clock * Input) :=
  [ (tick 1000, PostRooms "ab12cd34");
    (tick 2000, Connect "s1"); (tick 2100, JoinRoom "s1" "ab12cd34" (Some "Ann"));
    (tick 3000, Connect "s2"); (tick 3100, JoinRoom "s2" "ab12cd34" (Some "Bob"));
    (tick 4000, Connect "s3"); (tick 4100, JoinRoom "s3" "ab12cd34" None) ].

Definition trio : State := List.last (run party initial) initial.

Lemma trio_members : members "ab12cd34" trio = {["s1"; "s2"; "s3"]}.
Proof. vm_compute. reflexivity. Qed.

Lemma party_admissible :
  admissible_run (fun r => r = "ab12cd34") party initial.
Proof.
  simpl. repeat split; try done; try (by vm_compute); try (by eexists).
Qed.

Lemma Forall_last_run {P : State → Prop} ins st d :
  Forall P (run ins st) → P (List.last (run ins st) d).
Proof.
  revert st. induction ins as [|[clk i] ins IH]; intros st H; simpl in *.
  - by inversion H.
  - inversion H as [|? ? _ Hrest]; subst.
    destruct (run ins (fst (step clk i st))) eqn:E; [|by rewrite <- E; apply IH;
      rewrite E].
    by destruct ins as [|[? ?] ?].
Qed.

(** In this state the channel of the room holds the three participants the
    store has registered. *)
Lemma trio_in_sync : in_sync (fun r => r = "ab12cd34") trio.
Proof.
  apply Forall_last_run, in_sync_run;
    [apply in_sync_initial|apply party_admissible].
Qed.






End Routing.

(** ** Decimal rendering and [parseInt] *)

Module JSFacts.
Import JS.

Fixpoint all_digits (s : string) : bool :=
  match s with
  | String c s' => is_digit c && all_digits s'
  | EmptyString => true
  end.

Lemma digit_of_ascii (d : N) :
  (d < 10)%N → digit_of (ascii_of_N (48 + d)) = Some d.
Proof.
  intros Hd.
  assert (Hcases : d ∈ [0; 1; 2; 3; 4; 5; 6; 7; 8; 9]%N).
  { assert (d = 0 ∨ d = 1 ∨ d = 2 ∨ d = 3 ∨ d = 4 ∨ d = 5 ∨ d = 6 ∨ d = 7
            ∨ d = 8 ∨ d = 9)%N as Hor by lia.
    repeat (destruct Hor as [->|Hor]; [set_solver|]). subst. set_solver. }
  repeat (apply elem_of_cons in Hcases as [->|Hcases]; [reflexivity|]).
  by apply elem_of_nil in Hcases.
Qed.

Lemma is_digit_code (c : ascii) :
  is_digit c = true → (48 <= N_of_ascii c <= 57)%N.
Proof.
  unfold is_digit, digit_of.
  destruct ((48 <=? N_of_ascii c) && (N_of_ascii c <=? 57))%N eqn:E; [|done].
  intros _. apply andb_true_iff in E as [H1 H2].
  apply N.leb_le in H1, H2. lia.
Qed.

Lemma is_digit_not_space (c : ascii) : is_digit c = true → is_space c = false.
Proof.
  intros H%is_digit_code. unfold is_space.
  repeat (apply orb_false_iff; split);
    [apply andb_false_iff; right; apply N.leb_gt; lia
    |apply N.eqb_neq; lia|apply N.eqb_neq; lia].
Qed.

Lemma is_digit_not (c : ascii) (x : ascii) :
  is_digit c = true → ¬ (48 <= N_of_ascii x <= 57)%N → Ascii.eqb c x = false.
Proof.
  intros H%is_digit_code Hx. destruct (Ascii.eqb_spec c x); [|done].
  subst. lia.
Qed.

Lemma is_digit_not_minus (c : ascii) : is_digit c = true → Ascii.eqb c "-" = false.
Proof. intros H. apply is_digit_not; [done|]. cbn. lia. Qed.

Lemma is_digit_not_plus (c : ascii) : is_digit c = true → Ascii.eqb c "+" = false.
Proof. intros H. apply is_digit_not; [done|]. cbn. lia. Qed.

Lemma digits_of_all_digits fuel n acc :
  all_digits acc = true → all_digits (digits_of fuel n acc) = true.
Proof.
  revert n acc. induction fuel as [|fuel IH]; intros n acc Hacc.
  - simpl. unfold is_digit.
    rewrite digit_of_ascii by (apply N.mod_lt; lia). by rewrite Hacc.
  - cbn [digits_of].
    assert (Hstep : all_digits (String (ascii_of_N (48 + n mod 10)) acc) = true).
    { simpl. unfold is_digit.
      rewrite digit_of_ascii by (apply N.mod_lt; lia). by rewrite Hacc. }
    destruct (n / 10 =? 0)%N; [done|]. by apply IH.
Qed.

Lemma digits_of_starts_with_digit fuel n acc :
  starts_with_digit (digits_of fuel n acc) = true.
Proof.
  revert n acc. induction fuel as [|fuel IH]; intros n acc.
  - simpl. unfold is_digit. by rewrite digit_of_ascii by (apply N.mod_lt; lia).
  - cbn [digits_of]. destruct (n / 10 =? 0)%N; [|apply IH].
    simpl. unfold is_digit. by rewrite digit_of_ascii by (apply N.mod_lt; lia).
Qed.

(** Reading back the digits written for [n] continues the accumulator by
    the digits of [n]. *)
Lemma digits_value_digits_of fuel n acc a :
  (n < 10 ^ N.of_nat (S fuel))%N →
  ∃ k, digits_value (digits_of fuel n acc) a =
       digits_value acc (a * 10 ^ k + n)%N.
Proof.
  revert n acc. induction fuel as [|fuel IH]; intros n acc Hn.
  - exists 1%N. simpl in *.
    rewrite digit_of_ascii by (apply N.mod_lt; lia).
    rewrite N.mod_small by lia. f_equal. lia.
  - cbn [digits_of]. destruct (n / 10 =? 0)%N eqn:E.
    + apply N.eqb_eq in E. exists 1%N. simpl.
      rewrite digit_of_ascii by (apply N.mod_lt; lia).
      assert (n < 10)%N by (apply N.div_small_iff in E; lia).
      rewrite N.mod_small by lia. f_equal. lia.
    + assert (Hdiv : (n / 10 < 10 ^ N.of_nat (S fuel))%N).
      { apply N.Div0.div_lt_upper_bound.
        replace (N.of_nat (S (S fuel))) with (N.succ (N.of_nat (S fuel))) in Hn
          by lia.
        by rewrite N.pow_succ_r' in Hn. }
      destruct (IH (n / 10)%N (String (ascii_of_N (48 + n mod 10)) acc) Hdiv)
        as [k Hk].
      exists (N.succ k). rewrite Hk. simpl.
      rewrite digit_of_ascii by (apply N.mod_lt; lia).
      f_equal. rewrite N.pow_succ_r'.
      pose proof (N.div_mod n 10). lia.
Qed.

Lemma log2_fuel (n : N) : (n < 10 ^ N.of_nat (S (N.to_nat (N.log2 n))))%N.
Proof.
  replace (N.of_nat (S (N.to_nat (N.log2 n)))) with (N.succ (N.log2 n)) by lia.
  destruct n as [|p]; [done|].
  eapply N.lt_le_trans; [apply N.log2_spec; lia|].
  apply N.pow_le_mono_l. lia.
Qed.

Lemma digits_value_string_of_N n : digits_value (string_of_N n) 0 = n.
Proof.
  unfold string_of_N.
  destruct (digits_value_digits_of (N.to_nat (N.log2 n)) n EmptyString 0
              (log2_fuel n)) as [k ->].
  simpl. lia.
Qed.

Lemma string_of_N_digits n : all_digits (string_of_N n) = true.
Proof. by apply digits_of_all_digits. Qed.

Lemma string_of_N_truthy n : truthy (Some (string_of_N n)) = true.
Proof.
  pose proof (digits_of_starts_with_digit (N.to_nat (N.log2 n)) n EmptyString)
    as H.
  unfold string_of_N. simpl. by destruct (digits_of _ _ _).
Qed.

(** [parseInt] reads back what the decimal rendering wrote. *)
Lemma parseInt_string_of_N n : parseInt (string_of_N n) = Int (Z.of_N n).
Proof.
  pose proof (digits_value_string_of_N n) as Hval.
  pose proof (digits_of_starts_with_digit (N.to_nat (N.log2 n)) n EmptyString)
    as Hstart.
  fold (string_of_N n) in Hstart.
  destruct (string_of_N n) as [|c r]; [done|].
  assert (Hc : is_digit c = true) by done.
  unfold parseInt. cbn [skip_spaces].
  rewrite (is_digit_not_space _ Hc), (is_digit_not_minus _ Hc),
    (is_digit_not_plus _ Hc).
  unfold parse_unsigned. rewrite Hstart, Hval. reflexivity.
Qed.

Lemma parseInt_string_of_Z z : (0 <= z)%Z → parseInt (string_of_Z z) = Int z.
Proof.
  intros Hz. destruct z as [|p|p]; [| |lia]; unfold string_of_Z;
    rewrite parseInt_string_of_N; f_equal; lia.
Qed.

Lemma string_of_Z_digits z : (0 <= z)%Z → all_digits (string_of_Z z) = true.
Proof.
  intros Hz. destruct z as [|p|p]; [| |lia]; apply string_of_N_digits.
Qed.

Lemma string_of_Z_truthy z : (0 <= z)%Z → truthy (Some (string_of_Z z)) = true.
Proof.
  intros Hz. destruct z as [|p|p]; [| |lia]; apply string_of_N_truthy.
Qed.

Lemma split_digits s : all_digits s = true → split "-" s = [s].
Proof.
  induction s as [|c s IH]; [done|]. simpl.
  intros [Hc Hs]%andb_true_iff.
  rewrite (is_digit_not_minus _ Hc), (IH Hs). reflexivity.
Qed.

Lemma split_digits_minus s t :
  all_digits s = true → split "-" (s +:+ String "-" t) = s :: split "-" t.
Proof.
  induction s as [|c s IH]; [done|]. simpl.
  intros [Hc Hs]%andb_true_iff.
  rewrite (is_digit_not_minus _ Hc), (IH Hs). reflexivity.
Qed.

End JSFacts.

(** ** The streaming gateway *)

Module TorrentFacts.
Import JS Torrent JSFacts.

(** The value of a [Range] header asking for bytes [start] to [end_]; the
    end may be left out. *)
Definition range_header (start : Z) (end_ : option Z) : string :=
  "bytes=" +:+ string_of_Z start +:+ "-"
  +:+ match end_ with Some e => string_of_Z e | None => EmptyString end.

Definition partial_content (file : File) (start end_ : Z) : Response :=
  mkResponse 206
    [ ("Content-Range",
       HStr ("bytes " +:+ string_of_Z start +:+ "-" +:+ string_of_Z end_
             +:+ "/" +:+ string_of_Z (f_length file)));
      ("Accept-Ranges", HStr "bytes");
      ("Content-Length", HNum (Int (end_ - start + 1)));
      ("Content-Type", HStr (contentType file)) ]
    (ReadStream file (Some (Int start, Int end_))).

Lemma range_header_parts start end_ :
  (0 <= start)%Z →
  split "-" (replace_first "bytes=" "" (range_header start end_)) =
  string_of_Z start
  :: split "-" match end_ with Some e => string_of_Z e | None => EmptyString end.
Proof.
  intros Hs. unfold range_header.
  change (replace_first "bytes=" ""
            ("bytes=" +:+ string_of_Z start +:+ "-" +:+
             match end_ with Some e => string_of_Z e | None => EmptyString end))
    with (string_of_Z start +:+ String "-"
            match end_ with Some e => string_of_Z e | None => EmptyString end).
  by rewrite split_digits_minus by by apply string_of_Z_digits.
Qed.

(** Whatever non-negative bounds are asked for, the answer is 206 with the
    headers computed from them: the handler compares them with nothing. *)
Lemma get_stream_closed_range g file start end_ :
  activeFile g = Some file → (0 <= start)%Z → (0 <= end_)%Z →
  get_stream (Some (range_header start (Some end_))) g =
  partial_content file start end_.
Proof.
  intros Hf Hs He. unfold get_stream. rewrite Hf.
  assert (Htruthy : truthy (Some (range_header start (Some end_))) = true)
    by done.
  rewrite Htruthy. cbn [default from_option id].
  rewrite range_header_parts by done.
  rewrite split_digits by by apply string_of_Z_digits.
  cbn [nth nth_error].
  rewrite string_of_Z_truthy by done.
  rewrite !parseInt_string_of_Z by done. reflexivity.
Qed.


Lemma get_stream_status range g file :
  activeFile g = Some file →
  res_status (get_stream range g) = 200%Z ∨
  res_status (get_stream range g) = 206%Z.
Proof.
  intros Hf. unfold get_stream. rewrite Hf.
  destruct (truthy range); [by right|by left].
Qed.


(** The example of the specification: 10000 bytes, [bytes=1000-1999]. *)
Definition movie : File := mkFile "Big.Buck.Bunny.mp4" 10000.

Definition serving : Gateway :=
  mkGateway (Some (mkTorrent "bbb" [movie] 0.25%Q)) (Some movie)
            (Some "magnet:?xt=urn:btih:abc") None.


(** With a read stream piped, the handler makes two calls on the response
    and no third one, however the stream ends. *)
Lemma serve_piped range g st hs file opts e :
  get_stream range g = mkResponse st hs (ReadStream file opts) →
  serve range g e = [WriteHead st hs; Pipe file opts].
Proof.
  intros H. unfold serve. rewrite H. cbn [res_body res_status res_headers].
  by destruct e.
Qed.

Lemma serve_selected range g file e :
  activeFile g = Some file →
  ∃ st hs opts,
    serve range g e = [WriteHead st hs; Pipe file opts] ∧
    (st = 200 ∨ st = 206)%Z.
Proof.
  intros Hf. unfold serve, get_stream. rewrite Hf.
  destruct (truthy range); cbn [res_body res_status res_headers];
    do 3 eexists; (split; [by destruct e|]); [by right|by left].
Qed.

(** C6, as stated, fails: for a start beyond the file and for an end before
    the start the handler calls [writeHead] with 206, the second time with
    a negative length, and pipes a read stream opened on the bounds as
    asked; it does so whether that stream then delivers or fails. So it is
    not the case that a request outside the file gets no 206 head. *)
Lemma out_of_range_answered_206 :
  (f_length movie = 10000%Z ∧
   (∀ e, serve (Some "bytes=20000-20010") serving e =
     [ WriteHead 206
         [ ("Content-Range", HStr "bytes 20000-20010/10000");
           ("Accept-Ranges", HStr "bytes");
           ("Content-Length", HNum (Int 11));
           ("Content-Type", HStr "video/mp4") ];
       Pipe movie (Some (Int 20000, Int 20010)) ]) ∧
   (∀ e, serve (Some "bytes=500-100") serving e =
     [ WriteHead 206
         [ ("Content-Range", HStr "bytes 500-100/10000");
           ("Accept-Ranges", HStr "bytes");
           ("Content-Length", HNum (Int (-399)));
           ("Content-Type", HStr "video/mp4") ];
       Pipe movie (Some (Int 500, Int 100)) ])) ∧
  ¬ (∀ g file start end_ e,
       activeFile g = Some file →
       (0 <= f_length file <= MAX_SAFE_INTEGER)%Z →
       (0 <= start <= MAX_SAFE_INTEGER)%Z →
       (0 <= end_ <= MAX_SAFE_INTEGER)%Z →
       (f_length file <= start ∨ end_ < start)%Z →
       ∀ hs, ¬ In (WriteHead 206 hs)
                  (serve (Some (range_header start (Some end_))) g e)).
Proof.
  split; [split; [done|split; intros e; by destruct e]|].
  intros Hall.
  eapply (Hall serving movie 20000%Z 20010%Z Delivered eq_refl);
    [by vm_compute|by vm_compute|by vm_compute|left; simpl; lia|].
  left. reflexivity.
Qed.

(** C6, amended. The handler checks no range and has no range-not-satisfiable
    answer. For a request whose range lies outside [[0, total-1]] (bounds and
    length up to [MAX_SAFE_INTEGER]) it calls [writeHead] with 206 and with
    [Content-Range] and [Content-Length] computed from the bounds as asked,
    and pipes a read stream opened on those bounds. If the stream fails, the
    listener finds the headers sent and calls nothing: with a file selected
    the handler sets no status but 200 or 206, whatever the request and
    however the stream ends. *)
Theorem out_of_range_not_rejected (g : Gateway) (file : File)
    (start end_ : Z) :
  activeFile g = Some file →
  (0 <= f_length file <= MAX_SAFE_INTEGER)%Z →
  (0 <= start <= MAX_SAFE_INTEGER)%Z →
  (0 <= end_ <= MAX_SAFE_INTEGER)%Z →
  (f_length file <= start ∨ end_ < start ∨ f_length file <= end_)%Z →
  (∀ e, serve (Some (range_header start (Some end_))) g e =
     [ WriteHead 206
         [ ("Content-Range",
            HStr ("bytes " +:+ string_of_Z start +:+ "-" +:+ string_of_Z end_
                  +:+ "/" +:+ string_of_Z (f_length file)));
           ("Accept-Ranges", HStr "bytes");
           ("Content-Length", HNum (Int (end_ - start + 1)));
           ("Content-Type", HStr (contentType file)) ];
       Pipe file (Some (Int start, Int end_)) ]) ∧
  (∀ range e, ∃ st hs opts,
     serve range g e = [WriteHead st hs; Pipe file opts] ∧
     (st = 200 ∨ st = 206)%Z) ∧
  (∀ range msg, serve range g (Failed msg) = serve range g Delivered).
Proof.
  intros Hf _ [Hs _] [He _] _. split; [|split].
  - intros e. apply serve_piped.
    by rewrite (get_stream_closed_range g file start end_).
  - intros range e. by apply serve_selected.
  - intros range msg. unfold serve.
    by destruct (res_body (get_stream range g)).
Qed.

Lemma out_of_range_not_rejected_witness :
  serve (Some "bytes=20000-20010") serving (Failed "range") =
    [ WriteHead 206
        [ ("Content-Range", HStr "bytes 20000-20010/10000");
          ("Accept-Ranges", HStr "bytes");
          ("Content-Length", HNum (Int 11));
          ("Content-Type", HStr "video/mp4") ];
      Pipe movie (Some (Int 20000, Int 20010)) ].
Proof.
  destruct (out_of_range_not_rejected serving movie 20000 20010 eq_refl)
    as [H _]; [by vm_compute|by vm_compute|by vm_compute|left; simpl; lia|].
  exact (H (Failed "range")).
Defined.

(** *** Starting a transfer *)

(** A transfer of [magnet_a] whose metadata has not arrived yet. *)
Definition magnet_a : string := "magnet:?xt=urn:btih:abc".
Definition magnet_b : string := "magnet:?xt=urn:btih:def".
Definition connecting : Gateway := mkGateway None None (Some magnet_a) None.
Definition torrent_a : TorrentObj :=
  mkTorrent "a" [mkFile "a.mkv" 700000] 0%Q.

(** C9. The handler misses the transfer that is still connecting. Its
    comments read "If same magnet is already active, just return ok" and
    "Remove previous torrent if any", and once the metadata has arrived it
    does both. Before that no torrent object exists, and both tests ask for
    one: a second request for the same magnet issues a second [client.add]
    and answers adding, and a request for another magnet removes nothing
    from the client, so that the metadata of the first magnet, when it
    arrives, makes its torrent the active one under the second magnet. So it
    is not the case that a request for the magnet of a transfer that is not
    idle changes nothing. *)
Lemma connecting_transfer_restarted :
  (status connecting = "connecting" ∧
   post_add (Some magnet_a) (on_torrent torrent_a connecting) =
     (on_torrent torrent_a connecting, [], AlreadyActive) ∧
   post_add (Some magnet_a) connecting =
     (connecting, [ClientAdd magnet_a], Adding) ∧
   post_add (Some magnet_b) connecting =
     (mkGateway None None (Some magnet_b) None, [ClientAdd magnet_b], Adding) ∧
   on_torrent torrent_a (mkGateway None None (Some magnet_b) None) =
     mkGateway (Some torrent_a) (Some (mkFile "a.mkv" 700000)) (Some magnet_b)
               None) ∧
  ¬ (∀ g m, activeMagnet g = Some m → status g ≠ "idle" →
            post_add (Some m) g = (g, [], AlreadyActive)).
Proof.
  split; [repeat split|].
  intros Hall. specialize (Hall connecting magnet_a eq_refl).
  discriminate Hall. discriminate.
Qed.

(** The handler case by case, for a non-empty magnet [m]: with a torrent
    object and the active magnet [m] it answers already-active and changes
    nothing; with a torrent object for another magnet it removes that torrent
    from the client and clears torrent, file, magnet and error before the
    add; without a torrent object it removes nothing. Whenever the add is
    issued, the slot holds [m] with the error cleared and the status reads
    connecting. *)
Lemma post_add_replaces (g : Gateway) (m : string) :
  truthy (Some m) = true →
  (∀ t, activeTorrent g = Some t → activeMagnet g = Some m →
     post_add (Some m) g = (g, [], AlreadyActive)) ∧
  (∀ t, activeTorrent g = Some t → activeMagnet g ≠ Some m →
     post_add (Some m) g =
       (mkGateway None None (Some m) None, [ClientRemove t; ClientAdd m],
        Adding)) ∧
  (activeTorrent g = None →
     post_add (Some m) g =
       (mkGateway None (activeFile g) (Some m) None, [ClientAdd m], Adding)) ∧
  (∀ g' calls, post_add (Some m) g = (g', calls, Adding) →
     activeTorrent g' = None ∧ activeMagnet g' = Some m ∧ addError g' = None ∧
     status g' = "connecting").
Proof.
  intros Hm.
  assert (Hsame : ∀ t, activeTorrent g = Some t → activeMagnet g = Some m →
            post_add (Some m) g = (g, [], AlreadyActive)).
  { intros t Ht Hmag. unfold post_add, same_magnet. rewrite Hm, Ht, Hmag.
    simpl. by rewrite String.eqb_refl. }
  assert (Hother : ∀ t, activeTorrent g = Some t → activeMagnet g ≠ Some m →
            post_add (Some m) g =
              (mkGateway None None (Some m) None,
               [ClientRemove t; ClientAdd m], Adding)).
  { intros t Ht Hmag. unfold post_add, same_magnet. rewrite Hm, Ht. simpl.
    destruct (activeMagnet g) as [m0|]; [|done].
    destruct (String.eqb_spec m0 m); [congruence|done]. }
  assert (Hnone : activeTorrent g = None →
            post_add (Some m) g =
              (mkGateway None (activeFile g) (Some m) None, [ClientAdd m],
               Adding)).
  { intros Ht. unfold post_add. rewrite Hm, Ht. simpl.
    by rewrite andb_false_r, Ht. }
  split; [exact Hsame|]. split; [exact Hother|]. split; [exact Hnone|].
  intros g' calls Hadd.
  assert (Hg' : activeTorrent g' = None ∧ activeMagnet g' = Some m ∧
                addError g' = None).
  { destruct (activeTorrent g) as [t|] eqn:Ht.
    - destruct (decide (activeMagnet g = Some m)) as [Hmag|Hmag].
      + rewrite (Hsame t eq_refl Hmag) in Hadd. discriminate Hadd.
      + rewrite (Hother t eq_refl Hmag) in Hadd. by injection Hadd as <- _.
    - rewrite (Hnone eq_refl) in Hadd. by injection Hadd as <- _. }
  destruct Hg' as (H1 & H2 & H3). repeat split; try done.
  unfold status. rewrite H3, H1, H2, Hm. reflexivity.
Qed.

End TorrentFacts.

(** ** Seek detection *)

Module ClientFacts.
Import Client.

(** C8. On a poll tick where the player reports position [t]: a seek intent
    carrying [t] is emitted, once, when [|t - last| > 2] and no remote action
    is being applied; nothing is emitted when [|t - last| <= 2], nor while a
    remote action is being applied; the last observed position becomes [t]
    in every case and the suppression flag is not touched. *)
Theorem seek_poll_threshold (roomId : string) (player : Player) (t : Q)
    (r : Refs) :
  getCurrentTime player = Some t →
  ((2 < Qabs (t - lastTimeRef r))%Q → isRemoteAction r = false →
     snd (seek_poll roomId player r) = [mkSeek roomId t]) ∧
  ((Qabs (t - lastTimeRef r) <= 2)%Q → snd (seek_poll roomId player r) = []) ∧
  (isRemoteAction r = true → snd (seek_poll roomId player r) = []) ∧
  lastTimeRef (fst (seek_poll roomId player r)) = t ∧
  isRemoteAction (fst (seek_poll roomId player r)) = isRemoteAction r.
Proof.
  intros Ht. unfold seek_poll, gt2. rewrite Ht.
  cbn [fst snd lastTimeRef isRemoteAction]. repeat split.
  - intros Hgt ->.
    destruct (Qle_bool (Qabs (t - lastTimeRef r)) 2) eqn:E; [|done].
    apply Qle_bool_iff in E. exfalso. exact (Qlt_not_le _ _ Hgt E).
  - intros Hle. apply Qle_bool_iff in Hle. by rewrite Hle.
  - intros ->. by rewrite andb_false_r.
Qed.

(** The examples of the specification: from 20.0 to 50.0, and to 21.5. *)
Lemma seek_poll_threshold_witness :
  snd (seek_poll "r" (mkPlayer (Some 50%Q)) (mkRefs false 20%Q)) =
    [mkSeek "r" 50%Q] ∧
  snd (seek_poll "r" (mkPlayer (Some 21.5%Q)) (mkRefs false 20%Q)) = [] ∧
  lastTimeRef (fst (seek_poll "r" (mkPlayer (Some 21.5%Q)) (mkRefs true 20%Q)))
    = 21.5%Q.
Proof.
  destruct (seek_poll_threshold "r" (mkPlayer (Some 50%Q)) 50%Q
              (mkRefs false 20%Q) eq_refl) as [Hjump _].
  destruct (seek_poll_threshold "r" (mkPlayer (Some 21.5%Q)) 21.5%Q
              (mkRefs false 20%Q) eq_refl) as [_ [Hsmall _]].
  destruct (seek_poll_threshold "r" (mkPlayer (Some 21.5%Q)) 21.5%Q
              (mkRefs true 20%Q) eq_refl) as [_ [_ [_ [Hlast _]]]].
  split; [apply Hjump; [reflexivity|reflexivity]|].
  split; [apply Hsmall; discriminate|exact Hlast].
Defined.

End ClientFacts.

(** * Further properties of the code *)

(** ** The room store: order, uniqueness and round trips *)

Module RoomsMore.
Import Rooms JSMapFacts RoomsFacts.

Lemma set_absent {V} (m : JSMap.t V) k v :
  JSMap.get k m = None → JSMap.set k v m = m ++ [(k, v)].
Proof.
  induction m as [|[k' v'] m IH]; simpl; [done|].
  destruct (String.eqb k k'); [done|]. intros H. by rewrite IH.
Qed.

Lemma keys_set_present {V} (m : JSMap.t V) k v :
  is_Some (JSMap.get k m) → JSMap.keys (JSMap.set k v m) = JSMap.keys m.
Proof.
  induction m as [|[k' v'] m IH]; simpl; [by intros [? ?]|].
  destruct (String.eqb_spec k k') as [->|]; simpl; [done|].
  intros H. by rewrite (IH H).
Qed.

Lemma keys_delete_filter {V} (m : JSMap.t V) k :
  JSMap.keys (JSMap.delete k m) =
  List.filter (fun k' => negb (String.eqb k k')) (JSMap.keys m).
Proof.
  induction m as [|[k' v'] m IH]; simpl; [done|].
  fold (JSMap.delete k m). destruct (String.eqb k k'); simpl; by rewrite IH.
Qed.

Lemma get_None_keys {V} (m : JSMap.t V) k :
  JSMap.get k m = None ↔ ¬ In k (JSMap.keys m).
Proof.
  induction m as [|[k' v'] m IH]; simpl; [tauto|].
  destruct (String.eqb_spec k k') as [->|Hne].
  - split; [done|]. intros H. destruct H. by left.
  - rewrite IH. split; [intros H [?|?]; [congruence|done]|tauto].
Qed.

Lemma delete_set_absent {V} (m : JSMap.t V) k v :
  JSMap.get k m = None → JSMap.delete k (JSMap.set k v m) = m.
Proof.
  intros H. rewrite (set_absent _ _ _ H). unfold JSMap.delete.
  rewrite List.filter_app. simpl. rewrite String.eqb_refl. simpl.
  rewrite app_nil_r. by apply delete_absent.
Qed.

Definition socket_ids (roomId : string) (rooms : gmap string Room)
  : list string :=
  map ue_socketId (getUsersList roomId rooms).

Lemma socket_ids_keys r (rooms : gmap string Room) room :
  rooms !! r = Some room → socket_ids r rooms = JSMap.keys (users room).
Proof.
  intros H. unfold socket_ids, getUsersList, JSMap.entries, JSMap.keys.
  rewrite H, map_map. reflexivity.
Qed.

(** X1. The participant list keeps the order of arrival: a newcomer is appended,
    a socket that joins again keeps its place, and a leave takes out the
    leaver without moving the others. *)
Theorem getUsersList_order (now : Z) (r sid : string) (name : option string)
    (rooms : gmap string Room) (room : Room) :
  rooms !! r = Some room →
  (JSMap.get sid (users room) = None →
     getUsersList r (exec (JoinOp now r sid name) rooms) =
     getUsersList r rooms ++ [mkUserEntry sid (or_default name "Guest")]) ∧
  (is_Some (JSMap.get sid (users room)) →
     socket_ids r (exec (JoinOp now r sid name) rooms) = socket_ids r rooms ∧
     In (mkUserEntry sid (or_default name "Guest"))
        (getUsersList r (exec (JoinOp now r sid name) rooms))) ∧
  socket_ids r (exec (LeaveOp r sid) rooms) =
    List.filter (fun s => negb (String.eqb sid s)) (socket_ids r rooms).
Proof.
  intros H. split; [|split].
  - intros Habs. simpl. rewrite (joinRoom_existing _ _ _ _ _ _ H). simpl.
    unfold getUsersList. rewrite lookup_insert_eq, H. simpl.
    unfold JSMap.entries. rewrite (set_absent _ _ _ Habs), map_app.
    reflexivity.
  - intros Hin. simpl. rewrite (joinRoom_existing _ _ _ _ _ _ H). simpl.
    split.
    + erewrite socket_ids_keys by apply lookup_insert_eq. simpl.
      rewrite (socket_ids_keys _ _ _ H). by apply keys_set_present.
    + unfold getUsersList. rewrite lookup_insert_eq. simpl.
      apply (in_map (fun e => mkUserEntry (fst e) (username (snd e)))
                    _ (sid, mkUser (or_default name "Guest"))).
      apply list_elem_of_In, get_Some_in, get_set_eq.
  - rewrite (socket_ids_keys _ _ _ H). simpl. unfold leaveRoom. rewrite H.
    simpl. destruct (JSMap.size _ =? 0)%Z eqn:Hs; simpl.
    + apply size_zero in Hs. unfold socket_ids, getUsersList.
      rewrite lookup_delete_eq. simpl.
      by rewrite <- keys_delete_filter, Hs.
    + erewrite socket_ids_keys by apply lookup_insert_eq. simpl.
      apply keys_delete_filter.
Qed.

Definition duo_store : gmap string Room :=
  {["r" := {| sourceType := "youtube"; videoId := None; url := None;
              magnetURI := None; currentTime := 0%Q; isPlaying := false;
              lastUpdate := 1000;
              users := [("a", mkUser "Ann"); ("b", mkUser "Bob")] |}]}.

Lemma getUsersList_order_witness :
  getUsersList "r" (exec (JoinOp 2000 "r" "c" None) duo_store) =
    [mkUserEntry "a" "Ann"; mkUserEntry "b" "Bob"; mkUserEntry "c" "Guest"] ∧
  socket_ids "r" (exec (LeaveOp "r" "a") duo_store) = ["b"].
Proof.
  destruct (getUsersList_order 2000 "r" "c" None duo_store _
              (lookup_singleton_eq _ _)) as [Hnew _].
  destruct (getUsersList_order 2000 "r" "a" None duo_store _
              (lookup_singleton_eq _ _)) as [_ [_ Hleave]].
  split.
  - rewrite (Hnew eq_refl). vm_compute. reflexivity.
  - rewrite Hleave. vm_compute. reflexivity.
Defined.

(** No socket is listed twice. *)
Definition unique_users (rooms : gmap string Room) : Prop :=
  map_Forall (fun _ room => NoDup (JSMap.keys (users room))) rooms.

Lemma keys_set_NoDup {V} (m : JSMap.t V) k v :
  NoDup (JSMap.keys m) → NoDup (JSMap.keys (JSMap.set k v m)).
Proof.
  intros Hnd. destruct (JSMap.get k m) eqn:E.
  - by rewrite keys_set_present.
  - rewrite (set_absent _ _ _ E). unfold JSMap.keys. rewrite map_app. simpl.
    apply NoDup_app. split; [done|]. split; [|apply NoDup_singleton].
    intros x Hx Hk. apply list_elem_of_singleton in Hk as ->.
    apply get_None_keys in E. apply E. by apply list_elem_of_In.
Qed.

Lemma keys_delete_NoDup {V} (m : JSMap.t V) k :
  NoDup (JSMap.keys m) → NoDup (JSMap.keys (JSMap.delete k m)).
Proof.
  intros Hnd. rewrite keys_delete_filter.
  apply NoDup_ListNoDup, List.NoDup_filter. by apply NoDup_ListNoDup.
Qed.

Lemma unique_users_exec op rooms :
  unique_users rooms → unique_users (exec op rooms).
Proof.
  intros Hu. destruct op as [now r sid name|r sid|now r upd| | |]; simpl;
    try done.
  - unfold joinRoom, createRoom.
    destruct (rooms !! r) as [room|] eqn:E; simpl.
    + apply map_Forall_insert_2; [|done]. simpl.
      apply keys_set_NoDup, (Hu r room E).
    + rewrite insert_insert_eq. apply map_Forall_insert_2; [|done]. simpl.
      apply NoDup_singleton.
  - unfold leaveRoom. destruct (rooms !! r) as [room|] eqn:E; simpl; [|done].
    destruct (JSMap.size _ =? 0)%Z; simpl.
    + by apply map_Forall_delete.
    + apply map_Forall_insert_2; [|done]. simpl.
      apply keys_delete_NoDup, (Hu r room E).
  - unfold updateRoom. destruct (rooms !! r) as [room|] eqn:E; simpl; [|done].
    apply map_Forall_insert_2; [|done]. simpl. apply (Hu r room E).
Qed.

Lemma unique_users_step clk i st :
  unique_users (Server.rooms st) →
  unique_users (Server.rooms (fst (Server.step clk i st))).
Proof.
  intros Hp.
  destruct i as [sid|r|sid r name|sid r sT vid u mag|sid r t|sid r t|sid r t
                |sid r text|sid]; simpl; try done.
  - rewrite ServerFacts.post_rooms_store. by apply unique_users_exec.
  - rewrite ServerFacts.on_join_room_store. by do 2 apply unique_users_exec.
  - rewrite ServerFacts.on_video_change_store. by apply unique_users_exec.
  - rewrite ServerFacts.on_play_store. by apply unique_users_exec.
  - rewrite ServerFacts.on_pause_store. by apply unique_users_exec.
  - destruct (ServerFacts.on_seek_store clk sid r t st) as [playing ->].
    by apply unique_users_exec.
  - destruct (ServerFacts.on_disconnect_store clk sid st) as [->|[r ->]];
      [done|]. by apply unique_users_exec.
Qed.

(** X2. In every state the server reaches, the participant list of every room
    names each socket once. *)
Theorem users_list_distinct (ins : list (Server.Clock * Server.Input)) :
  Forall (fun st => ∀ r, NoDup (socket_ids r (Server.rooms st)))
         (Server.run ins Server.initial).
Proof.
  assert (H : ∀ st, unique_users (Server.rooms st) →
            Forall (fun st => ∀ r, NoDup (socket_ids r (Server.rooms st)))
                   (Server.run ins st)).
  { assert (Hids : ∀ st, unique_users (Server.rooms st) →
                         ∀ r, NoDup (socket_ids r (Server.rooms st))).
    { intros st Hu r. destruct (Server.rooms st !! r) as [room|] eqn:E.
      - rewrite (socket_ids_keys _ _ _ E). apply (Hu r room E).
      - unfold socket_ids, getUsersList. rewrite E. constructor. }
    induction ins as [|[clk i] ins IH]; intros st Hu; simpl.
    - constructor; [by apply Hids|constructor].
    - constructor; [by apply Hids|]. by apply IH, unique_users_step. }
  apply H. apply map_Forall_empty.
Qed.

(** X3. A newcomer who joins and leaves again puts the store back as it was,
    also when the join created the room. *)
Theorem join_leave_round_trip (now : Z) (r sid : string)
    (name : option string) (rooms : gmap string Room) :
  populated rooms →
  (∀ room, rooms !! r = Some room → JSMap.get sid (users room) = None) →
  snd (leaveRoom r sid (snd (joinRoom now r sid name rooms))) = rooms ∧
  left_username (fst (leaveRoom r sid (snd (joinRoom now r sid name rooms))))
    = Some (or_default name "Guest").
Proof.
  intros Hp Habs. destruct (rooms !! r) as [room|] eqn:E.
  - specialize (Habs room eq_refl).
    rewrite (joinRoom_existing _ _ _ _ _ _ E). simpl.
    unfold leaveRoom. rewrite lookup_insert_eq. simpl.
    rewrite get_set_eq, (delete_set_absent _ _ _ Habs).
    destruct (JSMap.size (users room) =? 0)%Z eqn:Hs.
    + apply size_zero in Hs. by destruct (Hp r room E).
    + simpl. split; [|done].
      rewrite insert_insert_eq. rewrite insert_id; [done|].
      rewrite E. f_equal. by destruct room.
  - rewrite joinRoom_fresh by done. unfold leaveRoom.
    rewrite lookup_insert_eq. simpl. rewrite !String.eqb_refl. simpl.
    split; [|done]. rewrite delete_insert_eq. by apply delete_id.
Qed.

Lemma join_leave_round_trip_witness :
  snd (leaveRoom "r" "c" (snd (joinRoom 2000 "r" "c" (Some "Cy") duo_store)))
    = duo_store.
Proof.
  refine (proj1 (join_leave_round_trip 2000 "r" "c" (Some "Cy") duo_store
                   _ _)).
  - apply map_Forall_singleton. discriminate.
  - intros room H. unfold duo_store in H.
    apply lookup_singleton_Some in H as [_ <-]. reflexivity.
Defined.

(** X4. [updateRoom] changes neither which rooms exist nor who is in them, and
    on a room that does not exist it returns [null] and changes nothing. *)
Theorem updateRoom_keeps_membership (now : Z) (r : string) (upd : Updates)
    (rooms : gmap string Room) :
  (∀ r', roomExists r' (exec (UpdateOp now r upd) rooms) = roomExists r' rooms ∧
         getUsersList r' (exec (UpdateOp now r upd) rooms) =
           getUsersList r' rooms) ∧
  (rooms !! r = None → updateRoom now r upd rooms = (None, rooms)).
Proof.
  split.
  - intros r'. destruct (decide (r' = r)) as [->|Hne].
    + simpl. unfold updateRoom, roomExists, getUsersList.
      destruct (rooms !! r) as [room|] eqn:E; simpl; [|by rewrite E].
      rewrite lookup_insert_eq. simpl. by split.
    + unfold roomExists, getUsersList. by rewrite exec_other.
  - intros H. unfold updateRoom. by rewrite H.
Qed.

(** X5. The count a leave returns is 0 exactly when the room is gone
    afterwards; otherwise it is the user count the next snapshot reports. *)
Theorem leaveRoom_remaining (r sid : string) (rooms : gmap string Room) :
  (remaining (fst (leaveRoom r sid rooms)) = 0%Z ↔
   roomExists r (snd (leaveRoom r sid rooms)) = false) ∧
  (∀ now st, getRoomState now r (snd (leaveRoom r sid rooms)) = Some st →
     rs_userCount st = remaining (fst (leaveRoom r sid rooms)) ∧
     (0 < remaining (fst (leaveRoom r sid rooms)))%Z).
Proof.
  unfold leaveRoom. destruct (rooms !! r) as [room|] eqn:E; simpl.
  - destruct (JSMap.size _ =? 0)%Z eqn:Hs; simpl.
    + split.
      * split; [intros _|done]. apply roomExists_false, lookup_delete_eq.
      * intros now st. unfold getRoomState. by rewrite lookup_delete_eq.
    + assert (Hpos : (0 < JSMap.size (JSMap.delete sid (users room)))%Z).
      { apply Z.eqb_neq in Hs. unfold JSMap.size in *. lia. }
      split.
      * split; [lia|]. intros H. apply roomExists_false in H.
        by rewrite lookup_insert_eq in H.
      * intros now st. unfold getRoomState. rewrite lookup_insert_eq.
        intros [= <-]. simpl. split; [done|exact Hpos].
  - split.
    + split; [intros _|done]. by apply roomExists_false.
    + intros now st. unfold getRoomState. by rewrite E.
Qed.

End RoomsMore.

(** ** The handlers of server/index.js: what a client sees *)

Module ServerMore.
Import Rooms Server JSMapFacts RoomsFacts ServerFacts Sync RoomsMore.

Lemma state_eta st : mkState (rooms st) (adapter st) (sockets st) = st.
Proof. by destruct st. Qed.

(** The room a socket has just joined: the joiner is registered under the
    name it gave (or ["Guest"]), the placeholder is gone. *)
Lemma joined_room clk sid r name st :
  sid ≠ placeholder →
  ∃ room', rooms (fst (on_join_room clk sid r name st)) !! r = Some room' ∧
           JSMap.get placeholder (users room') = None ∧
           JSMap.get sid (users room') =
             Some (mkUser (or_default name "Guest")).
Proof.
  intros Hsid. rewrite on_join_room_store. cbn [exec]. unfold leaveRoom.
  destruct (rooms st !! r) as [room|] eqn:H; cbn [snd].
  - destruct (JSMap.size _ =? 0)%Z eqn:Hs; cbn [snd].
    + rewrite joinRoom_fresh by apply lookup_delete_eq.
      eexists. split; [apply lookup_insert_eq|]. cbn [users].
      rewrite or_default_Guest.
      split; [by apply get_singleton_ne|apply get_singleton_eq].
    + erewrite joinRoom_existing by apply lookup_insert_eq. cbn [snd].
      eexists. split; [apply lookup_insert_eq|]. cbn [users set_users].
      rewrite or_default_Guest, get_set_ne by done.
      by rewrite get_delete_eq, get_set_eq.
  - rewrite joinRoom_fresh by done.
    eexists. split; [apply lookup_insert_eq|]. cbn [users].
    rewrite or_default_Guest.
    split; [by apply get_singleton_ne|apply get_singleton_eq].
Qed.

Lemma getUsersList_entry r (rooms0 : gmap string Room) room k v :
  rooms0 !! r = Some room → JSMap.get k (users room) = Some v →
  In (mkUserEntry k (username v)) (getUsersList r rooms0).
Proof.
  intros H Hget. unfold getUsersList. rewrite H.
  apply (in_map (fun e => mkUserEntry (fst e) (username (snd e))) _ (k, v)).
  by apply list_elem_of_In, get_Some_in.
Qed.

Lemma getUsersList_absent r (rooms0 : gmap string Room) room k u :
  rooms0 !! r = Some room → JSMap.get k (users room) = None →
  In u (getUsersList r rooms0) → ue_socketId u ≠ k.
Proof.
  intros H Hget Hu Heq. apply get_None_keys in Hget. apply Hget.
  rewrite <- (socket_ids_keys _ _ _ H). subst k. by apply in_map.
Qed.

Lemma filter_all {A} (P : A → Prop) `{∀ x, Decision (P x)} (l : list A) :
  (∀ x, In x l → P x) → filter P l = l.
Proof.
  induction l as [|a l IH]; intros Hall; [done|].
  rewrite filter_cons_True by (apply Hall; by left).
  f_equal. apply IH. intros x Hx. apply Hall. by right.
Qed.

(** *** Playback events followed by a snapshot *)

Definition seen (room : Room) (r : string) (st : State) (pos : Q)
    (playing : bool) : RoomState :=
  {| rs_sourceType := sourceType room; rs_videoId := videoId room;
     rs_url := url room; rs_magnetURI := magnetURI room;
     rs_currentTime := pos; rs_isPlaying := playing;
     rs_userCount := JSMap.size (users room);
     rs_users := getUsersList r (rooms st) |}.

Lemma snapshot_after_update now T r upd (rooms0 : gmap string Room) room :
  rooms0 !! r = Some room →
  getRoomState now r (exec (UpdateOp T r upd) rooms0) =
  getRoomState now r (<[r := apply_updates T upd room]> rooms0).
Proof. intros H. simpl. unfold updateRoom. by rewrite H. Qed.

(** X6. After a play at position [t] a snapshot shows [t] plus the time elapsed
    since the play; after a pause it shows [t] whenever it is taken; a seek
    moves the position and keeps the playing flag. None of the three touches
    the source or the participants. *)
Theorem playback_then_snapshot (clk : Clock) (sid r : string) (t : Q)
    (st : State) (room : Room) :
  rooms st !! r = Some room →
  (∀ now, getRoomState now r (rooms (fst (on_play clk sid r t st))) =
     Some (seen room r st (t + elapsed now (at_updateRoom clk))%Q true)) ∧
  (∀ now, getRoomState now r (rooms (fst (on_pause clk sid r t st))) =
     Some (seen room r st t false)) ∧
  (∀ now, getRoomState now r (rooms (fst (on_seek clk sid r t st))) =
     Some (seen room r st
             (if isPlaying room
              then (t + elapsed now (at_updateRoom clk))%Q else t)
             (isPlaying room))).
Proof.
  intros H. split; [|split]; intros now.
  - rewrite on_play_store, (snapshot_after_update _ _ _ _ _ _ H).
    unfold seen, getRoomState, getUsersList. rewrite lookup_insert_eq, H.
    reflexivity.
  - rewrite on_pause_store, (snapshot_after_update _ _ _ _ _ _ H).
    unfold seen, getRoomState, getUsersList. rewrite lookup_insert_eq, H.
    reflexivity.
  - assert (Hplaying :
      default false (rs_isPlaying <$>
                       getRoomState (at_getRoomState clk) r (rooms st))
      = isPlaying room).
    { unfold getRoomState. by rewrite H. }
    unfold on_seek. rewrite Hplaying.
    destruct (updateRoom _ _ _ _) as [res rooms1] eqn:E. cbn [fst rooms].
    assert (rooms1 = exec (UpdateOp (at_updateRoom clk) r
                             (playback_update t (isPlaying room))) (rooms st))
      as -> by (simpl; by rewrite E).
    rewrite (snapshot_after_update _ _ _ _ _ _ H).
    unfold seen, getRoomState, getUsersList. rewrite lookup_insert_eq, H.
    cbn. by destruct (isPlaying room).
Qed.

Lemma playback_then_snapshot_witness :
  rs_currentTime <$>
    getRoomState 9000 "r"
      (rooms (fst (on_play (mkClock 0 5000 0 0) "a" "r" 30%Q watching)))
  = Some (30 + inject_Z (9000 - 5000) / 1000)%Q.
Proof.
  destruct (playback_then_snapshot (mkClock 0 5000 0 0) "a" "r" 30%Q watching
              _ (lookup_singleton_eq _ _)) as [Hplay _].
  rewrite (Hplay 9000%Z). reflexivity.
Defined.

(** *** Events that name a room the store does not have *)

(** X7. A play, pause, seek or video-change for a room that is not in the store
    creates nothing and changes nothing, and is relayed all the same. *)
Theorem event_for_missing_room (clk : Clock) (i : Input) (sid r : string)
    (msg : Message) (st : State) :
  Routing.relayed i = Some (sid, r, msg) →
  rooms st !! r = None →
  step clk i st = (st, [mkEmission (members r st ∖ {[sid]}) msg]).
Proof.
  intros Hrel Hr.
  destruct i; simpl in Hrel; try discriminate;
    injection Hrel as Hs Hr' Hm; subst; simpl.
  - unfold on_video_change, updateRoom. rewrite Hr. by rewrite state_eta.
  - unfold on_play, updateRoom. rewrite Hr. by rewrite state_eta.
  - unfold on_pause, updateRoom. rewrite Hr. by rewrite state_eta.
  - unfold on_seek, updateRoom. rewrite Hr. by rewrite state_eta.
Qed.

Lemma event_for_missing_room_witness :
  step (mkClock 0 0 0 0) (PlayIn "a" "nowhere" 5%Q) watching =
    (watching, [mkEmission (members "nowhere" watching ∖ {["a"]}) (Play 5%Q)]).
Proof.
  apply (event_for_missing_room (mkClock 0 0 0 0) (PlayIn "a" "nowhere" 5%Q)
           "a" "nowhere" (Play 5%Q) watching eq_refl).
  apply lookup_singleton_ne. discriminate.
Defined.

(** *** What a join announces *)

(** X8. The state sent to a joiner lists the joiner under the name it gave (or
    ["Guest"]) and never lists the placeholder; the users list broadcast by
    the same join is that very list. *)
Theorem join_announces_joiner (clk : Clock) (sid r : string)
    (name : option string) (st : State) :
  sid ≠ placeholder →
  ∃ state,
    snd (on_join_room clk sid r name st) =
      [ mkEmission {[sid]} (SyncState (Some state));
        mkEmission (({[sid]} ∪ members r st) ∖ {[sid]})
                   (UserJoined (or_default name "Guest") (at_emit clk));
        mkEmission ({[sid]} ∪ members r st) (UsersList (rs_users state)) ] ∧
    In (mkUserEntry sid (or_default name "Guest")) (rs_users state) ∧
    (∀ u, In u (rs_users state) → ue_socketId u ≠ placeholder) ∧
    rs_userCount state = Z.of_nat (length (rs_users state)).
Proof.
  intros Hsid.
  destruct (joined_room clk sid r name st Hsid) as (room' & Hroom & Hph & Hme).
  unfold on_join_room in *.
  destruct (leaveRoom _ _ _) as [res rooms1].
  destruct (joinRoom _ _ _ _ _) as [room rooms2]. cbn [fst snd rooms] in *.
  assert (Hclean : ∀ u, In u (getUsersList r rooms2) →
                        ue_socketId u ≠ placeholder).
  { intros u Hu. by eapply getUsersList_absent. }
  exists {| rs_sourceType := sourceType room'; rs_videoId := videoId room';
            rs_url := url room'; rs_magnetURI := magnetURI room';
            rs_currentTime :=
              if isPlaying room'
              then (currentTime room'
                    + elapsed (at_getRoomState clk) (lastUpdate room'))%Q
              else currentTime room';
            rs_isPlaying := isPlaying room';
            rs_userCount := JSMap.size (users room');
            rs_users := getUsersList r rooms2 |}.
  cbn [rs_users rs_userCount]. split; [|split; [|split]].
  - unfold broadcastUsersList, io_to, socket_to, users_list_payload.
    rewrite members_socket_join. cbn [rooms].
    rewrite (filter_all _ _ Hclean).
    unfold getRoomState. rewrite Hroom. reflexivity.
  - apply (getUsersList_entry _ _ _ _ _ Hroom Hme).
  - exact Hclean.
  - unfold getUsersList. rewrite Hroom. unfold JSMap.size, JSMap.entries.
    by rewrite length_map.
Qed.

Lemma join_announces_joiner_witness :
  ∃ state,
    snd (on_join_room (mkClock 0 0 7000 7000) "c" "r" None watching) =
      [ mkEmission {["c"]} (SyncState (Some state));
        mkEmission (({["c"]} ∪ members "r" watching) ∖ {["c"]})
                   (UserJoined "Guest" 7000);
        mkEmission ({["c"]} ∪ members "r" watching) (UsersList (rs_users state)) ] ∧
    In (mkUserEntry "c" "Guest") (rs_users state).
Proof.
  destruct (join_announces_joiner (mkClock 0 0 7000 7000) "c" "r" None watching)
    as (state & Hem & Hin & _); [discriminate|].
  exists state. split; [exact Hem|exact Hin].
Defined.

(** *** Disconnect *)

(** X9. When a socket that joined room [r] disconnects, it leaves the channel
    and the store. If it was the last one in the room, the room is deleted
    and nothing is sent; otherwise those who remain receive a user-left
    notice with the name the socket was registered under and a users list
    without it. *)
Theorem disconnect_outcome (clk : Clock) (sid r : string) (st : State)
    (room : Room) :
  sock_attr sock_roomId sid st = Some r → r ≠ EmptyString →
  rooms st !! r = Some room →
  let st' := fst (on_disconnect clk sid st) in
  members r st' = members r st ∖ {[sid]} ∧
  sockets st' !! sid = None ∧
  rooms st' = snd (leaveRoom r sid (rooms st)) ∧
  (JSMap.delete sid (users room) = [] →
     rooms st' !! r = None ∧ snd (on_disconnect clk sid st) = []) ∧
  (JSMap.delete sid (users room) ≠ [] →
     snd (on_disconnect clk sid st) =
       [ mkEmission (members r st ∖ {[sid]})
           (UserLeft
              (or_default (username <$> JSMap.get sid (users room)) "Guest")
              (at_emit clk));
         mkEmission (members r st ∖ {[sid]})
           (UsersList (users_list_payload r (rooms st'))) ] ∧
     ∀ u, In u (users_list_payload r (rooms st')) → ue_socketId u ≠ sid).
Proof.
  intros Hattr Hne H st'. subst st'. unfold on_disconnect. rewrite Hattr.
  assert (Htruthy : truthy (Some r) = true).
  { simpl. by destruct (String.eqb_spec r EmptyString). }
  rewrite Htruthy. unfold leaveRoom. rewrite H. cbn [fst snd].
  destruct (JSMap.size (JSMap.delete sid (users room)) =? 0)%Z eqn:Hs.
  - apply size_zero in Hs. cbn [remaining]. cbn.
    rewrite members_disconnect, lookup_delete_eq.
    repeat split; try done. apply lookup_delete_eq.
  - assert (Hpos : (0 <? JSMap.size (JSMap.delete sid (users room)))%Z = true).
    { apply Z.eqb_neq in Hs. apply Z.ltb_lt. unfold JSMap.size in *. lia. }
    cbn [remaining left_username]. rewrite Hpos. cbn [fst snd rooms sockets].
    rewrite members_disconnect, lookup_delete_eq.
    split; [done|]. split; [done|]. split; [done|].
    split; [intros Hnil; rewrite Hnil in Hs; done|].
    intros _. split.
    + unfold broadcastUsersList, io_to. by rewrite members_disconnect.
    + intros u Hu. unfold users_list_payload in Hu.
      apply list_elem_of_In, list_elem_of_filter in Hu as [_ Hu].
      apply list_elem_of_In in Hu.
      eapply getUsersList_absent; [apply lookup_insert_eq| |exact Hu].
      cbn [users set_users]. apply get_delete_eq.
Qed.

Lemma disconnect_outcome_witness :
  snd (on_disconnect (Routing.tick 8000) "s1" Routing.trio) =
    [ mkEmission (members "ab12cd34" Routing.trio ∖ {["s1"]})
                 (UserLeft "Ann" 8000);
      mkEmission (members "ab12cd34" Routing.trio ∖ {["s1"]})
                 (UsersList [mkUserEntry "s2" "Bob"; mkUserEntry "s3" "Guest"]) ].
Proof.
  assert (Hroom : rooms Routing.trio !! "ab12cd34" =
    Some {| sourceType := "youtube"; videoId := None; url := None;
            magnetURI := None; currentTime := 0%Q; isPlaying := false;
            lastUpdate := 2100;
            users := [("s1", mkUser "Ann"); ("s2", mkUser "Bob");
                      ("s3", mkUser "Guest")] |})
    by (vm_compute; reflexivity).
  destruct (disconnect_outcome (Routing.tick 8000) "s1" "ab12cd34" Routing.trio
              _ ltac:(vm_compute; reflexivity) ltac:(discriminate) Hroom)
    as (_ & _ & _ & _ & Hout).
  destruct Hout as [Hem _]; [discriminate|].
  rewrite Hem. vm_compute. reflexivity.
Defined.

(** *** A socket that joins two rooms *)

(** X10. [disconnect] leaves only the room joined last: a socket that joined
    [r1] and then [r2] stays registered in [r1] after it has disconnected,
    although it is no longer in the channel of [r1]. *)
Theorem second_join_strands_first (c1 c2 c3 : Clock) (sid r1 r2 : string)
    (n1 n2 : option string) (st : State) :
  sid ≠ placeholder → r1 ≠ r2 →
  let st1 := fst (step c1 (JoinRoom sid r1 n1) st) in
  let st2 := fst (step c2 (JoinRoom sid r2 n2) st1) in
  let st3 := fst (step c3 (Disconnect sid) st2) in
  (∃ room, rooms st3 !! r1 = Some room ∧
           JSMap.get sid (users room) = Some (mkUser (or_default n1 "Guest"))) ∧
  sid ∉ members r1 st3.
Proof.
  intros Hsid Hr st1 st2 st3.
  destruct (joined_room c1 sid r1 n1 st Hsid) as (room & Hroom & _ & Hme).
  assert (H2 : rooms st2 !! r1 = Some room).
  { subst st2. cbn [step]. rewrite on_join_room_store.
    rewrite !exec_other by (simpl; congruence). exact Hroom. }
  assert (Hattr : sock_attr sock_roomId sid st2 = Some r2).
  { subst st2. cbn [step]. unfold on_join_room, sock_attr.
    destruct (leaveRoom _ _ _) as [res rooms1].
    destruct (joinRoom _ _ _ _ _) as [room2 rooms2]. cbn [fst sockets].
    by rewrite lookup_insert_eq. }
  split.
  - exists room. split; [|exact Hme]. subst st3. cbn [step].
    unfold on_disconnect. rewrite Hattr.
    destruct (truthy (Some r2)); [|exact H2].
    destruct (leaveRoom r2 sid (rooms st2)) as [res rooms1] eqn:E.
    assert (rooms1 = exec (LeaveOp r2 sid) (rooms st2)) as ->
      by (simpl; by rewrite E).
    destruct (0 <? remaining res)%Z; cbn [fst rooms];
      rewrite exec_other by (simpl; congruence); exact H2.
  - subst st3. cbn [step]. unfold on_disconnect. rewrite Hattr.
    destruct (truthy (Some r2)).
    + destruct (leaveRoom _ _ _) as [res rooms1].
      destruct (0 <? remaining res)%Z; cbn [fst];
        rewrite members_disconnect; set_solver.
    + cbn [fst]. rewrite members_disconnect. set_solver.
Qed.

Definition stranded : State :=
  fst (step (Routing.tick 3) (Disconnect "s")
         (fst (step (Routing.tick 2) (JoinRoom "s" "two" (Some "Sam"))
                 (fst (step (Routing.tick 1) (JoinRoom "s" "one" (Some "Sam"))
                         initial))))).

Lemma second_join_strands_first_witness :
  (∃ room, rooms stranded !! "one" = Some room ∧
           JSMap.get "s" (users room) = Some (mkUser "Sam")) ∧
  "s" ∉ members "one" stranded.
Proof.
  apply (second_join_strands_first (Routing.tick 1) (Routing.tick 2)
           (Routing.tick 3) "s" "one" "two" (Some "Sam") (Some "Sam") initial);
    discriminate.
Defined.

(** *** Room lookup over REST *)

(** X11. GET /api/rooms/:roomId answers 404 exactly for the rooms the store does
    not have. A room that was just created through POST /api/rooms is
    reported in the default state with one user, the placeholder. *)
Theorem room_lookup (clk clk' : Clock) (r : string) (st : State) :
  (get_room clk r st = None ↔ rooms st !! r = None) ∧
  (rooms st !! r = None →
     get_room clk' r (post_rooms clk r st) =
       Some {| rs_sourceType := "youtube"; rs_videoId := None;
               rs_url := None; rs_magnetURI := None;
               rs_currentTime := 0%Q; rs_isPlaying := false;
               rs_userCount := 1;
               rs_users := [mkUserEntry placeholder "__system__"] |}).
Proof.
  split.
  - unfold get_room. destruct (roomExists r (rooms st)) eqn:E.
    + apply roomExists_true in E as [room E]. unfold getRoomState.
      rewrite E. split; discriminate.
    + apply roomExists_false in E. by split.
  - intros H. unfold get_room. rewrite post_rooms_store. cbn [exec].
    rewrite joinRoom_fresh by done.
    assert (Hex : roomExists r
              (<[r := {| sourceType := "youtube"; videoId := None; url := None;
                         magnetURI := None; currentTime := 0%Q;
                         isPlaying := false; lastUpdate := at_createRoom clk;
                         users := [(placeholder,
                                    mkUser (or_default (Some "__system__")
                                                       "Guest"))] |}]>
                 (rooms st)) = true).
    { apply roomExists_true. rewrite lookup_insert_eq. by eexists. }
    rewrite Hex. unfold getRoomState, getUsersList.
    rewrite lookup_insert_eq. reflexivity.
Qed.

(** *** Chat *)

(** X12. A chat message changes nothing on the server and carries the name the
    sender gave when it joined, or ["Guest"] when it gave none or never
    joined; it goes to the channel the message names. *)
Theorem chat_carries_join_name (clk clk' : Clock) (sid r r' text : string)
    (name : option string) (st : State) :
  let st' := fst (step clk (JoinRoom sid r name) st) in
  step clk' (SendMessage sid r' text) st' =
    (st', [mkEmission (members r' st')
             (ReceiveMessage (or_default name "Guest") text (at_emit clk'))]) ∧
  (sockets st !! sid = None →
   step clk' (SendMessage sid r' text) st =
     (st, [mkEmission (members r' st)
             (ReceiveMessage "Guest" text (at_emit clk'))])).
Proof.
  intros st'. split.
  - subst st'. cbn [step]. unfold on_send_message, io_to.
    assert (Hname : sock_attr sock_username sid
                      (fst (on_join_room clk sid r name st))
                    = Some (or_default name "Guest")).
    { unfold on_join_room, sock_attr.
      destruct (leaveRoom _ _ _) as [res rooms1].
      destruct (joinRoom _ _ _ _ _) as [room rooms2]. cbn [fst sockets].
      by rewrite lookup_insert_eq. }
    by rewrite Hname, or_default_Guest.
  - intros H. cbn [step]. unfold on_send_message, io_to, sock_attr.
    by rewrite H.
Qed.

(** *** Invariants of every run *)

(** X13. In every state the server reaches no room is empty: a snapshot of a
    room the store holds reports at least one user and lists at least
    one. *)
Theorem no_empty_room (ins : list (Clock * Input)) :
  Forall (fun st => ∀ now r state,
            getRoomState now r (rooms st) = Some state →
            (0 < rs_userCount state)%Z ∧ rs_users state ≠ [])
         (run ins initial).
Proof.
  eapply List.Forall_impl; [|apply populated_run].
  intros st Hp now r state. unfold getRoomState.
  destruct (rooms st !! r) as [room|] eqn:E; [|done].
  intros [= <-]. cbn [rs_userCount rs_users].
  pose proof (Hp r room E) as Hne. cbn beta in Hne.
  unfold getUsersList. rewrite E. cbn [default from_option id].
  unfold JSMap.size, JSMap.entries.
  destruct (users room) as [|e l]; [done|]. split; [|done].
  cbn [length]. lia.
Qed.

(** X14. When sockets connect under ids that are neither room codes nor the
    placeholder id, and each socket joins one room at most once, then in
    every state reached the channel of each room holds exactly the sockets
    the store registers in the room, and each of them records that room as
    its own. *)
Theorem channels_follow_store (room_id : string → Prop)
    (ins : list (Clock * Input)) :
  admissible_run room_id ins initial →
  Forall (fun st => ∀ r, room_id r →
            members r st = participants r (rooms st) ∧
            ∀ sid, sid ∈ participants r (rooms st) →
                   sock_attr sock_roomId sid st = Some r)
         (run ins initial).
Proof.
  intros Hadm.
  eapply List.Forall_impl;
    [|apply (in_sync_run room_id ins initial (in_sync_initial room_id) Hadm)].
  intros st [Hm Hj _ _] r Hr. split; [by apply Hm|].
  intros sid Hs. by apply Hj.
Qed.

Lemma channels_follow_store_witness :
  Forall (fun st => ∀ r, r = "ab12cd34" →
            members r st = participants r (rooms st) ∧
            ∀ sid, sid ∈ participants r (rooms st) →
                   sock_attr sock_roomId sid st = Some r)
         (run Routing.party initial).
Proof.
  apply (channels_follow_store (fun r => r = "ab12cd34") Routing.party).
  simpl. repeat split; try done; try (by vm_compute); try (by eexists).
Defined.

End ServerMore.

(** ** The gateway of server/torrent.js: file choice, status and stream *)

Module TorrentMore.
Import JS Torrent JSFacts TorrentFacts.

(** *** findVideoFile *)

Lemma head_insert_desc f l :
  head (insert_desc f l) =
  match head l with
  | Some g => if (f_length f <? f_length g)%Z then Some g else Some f
  | None => Some f
  end.
Proof.
  destruct l as [|g l]; simpl; [done|].
  by destruct (f_length f <? f_length g)%Z.
Qed.

(** [f] is the first of the longest files of [l]. *)
Definition first_longest (f : File) (l : list File) : Prop :=
  ∃ before after,
    l = before ++ f :: after ∧
    (∀ g, In g before → (f_length g < f_length f)%Z) ∧
    (∀ g, In g after → (f_length g <= f_length f)%Z).

Lemma head_sort_desc l :
  match head (sort_desc l) with
  | Some f => first_longest f l
  | None => l = []
  end.
Proof.
  induction l as [|a l IH]; simpl; [done|].
  rewrite head_insert_desc. destruct (head (sort_desc l)) as [g|].
  - destruct IH as (before & after & -> & Hb & Ha).
    destruct (f_length a <? f_length g)%Z eqn:E.
    + apply Z.ltb_lt in E. exists (a :: before), after.
      split; [done|]. split; [|done].
      intros x [<-|Hx]; [done|by apply Hb].
    + apply Z.ltb_ge in E. exists [], (before ++ g :: after).
      split; [done|]. split; [by intros ? []|].
      intros x Hx. apply in_app_or in Hx as [Hx|[<-|Hx]].
      * specialize (Hb x Hx). lia.
      * done.
      * specialize (Ha x Hx). lia.
  - subst l. exists [], []. split; [done|]. split; by intros ? [].
Qed.

Lemma first_longest_In f l : first_longest f l → In f l.
Proof.
  intros (before & after & -> & _). apply in_or_app. right. by left.
Qed.

Lemma findVideoFile_first_longest t f :
  findVideoFile t = Some f →
  first_longest f (List.filter is_video (t_files t)).
Proof.
  unfold findVideoFile. intros E.
  pose proof (head_sort_desc (List.filter is_video (t_files t))) as H.
  by rewrite E in H.
Qed.

Lemma findVideoFile_video t f :
  findVideoFile t = Some f → In f (t_files t) ∧ is_video f = true.
Proof.
  intros E. apply findVideoFile_first_longest, first_longest_In in E.
  by apply filter_In in E.
Qed.

Lemma findVideoFile_None t :
  findVideoFile t = None ↔ ∀ f, In f (t_files t) → is_video f = false.
Proof.
  split.
  - unfold findVideoFile. intros E f Hf.
    pose proof (head_sort_desc (List.filter is_video (t_files t))) as H.
    rewrite E in H. destruct (is_video f) eqn:Hv; [|done].
    assert (Hin : In f (List.filter is_video (t_files t)))
      by (apply filter_In; by split).
    rewrite H in Hin. destruct Hin.
  - intros Hnone. destruct (findVideoFile t) as [f|] eqn:E; [|done].
    apply findVideoFile_video in E as [Hin Hv].
    rewrite (Hnone f Hin) in Hv. done.
Qed.

(** X15. [findVideoFile] returns [null] exactly when no file of the torrent has
    a video extension. Otherwise it returns a file of the torrent with a
    video extension that is at least as long as every other such file, and
    the first one in the torrent's file order among those of that length. *)
Theorem findVideoFile_largest (t : TorrentObj) :
  (findVideoFile t = None ↔ ∀ f, In f (t_files t) → is_video f = false) ∧
  (∀ f, findVideoFile t = Some f →
     In f (t_files t) ∧ is_video f = true ∧
     (∀ g, In g (t_files t) → is_video g = true →
           (f_length g <= f_length f)%Z) ∧
     first_longest f (List.filter is_video (t_files t))).
Proof.
  split; [apply findVideoFile_None|]. intros f E.
  destruct (findVideoFile_video t f E) as [Hin Hv].
  pose proof (findVideoFile_first_longest t f E) as Hfl.
  split; [done|]. split; [done|]. split; [|done].
  destruct Hfl as (before & after & Heq & Hb & Ha).
  intros g Hg Hgv.
  assert (Hg' : In g (List.filter is_video (t_files t)))
    by (apply filter_In; by split).
  rewrite Heq in Hg'. apply in_app_or in Hg' as [Hg'|[<-|Hg']].
  - specialize (Hb g Hg'). lia.
  - lia.
  - by apply Ha.
Qed.

(** *** The MIME type of a selected file *)

Lemma endsWith_app s suffix :
  endsWith s suffix = true → ∃ p, s = p +:+ suffix.
Proof.
  induction s as [|c s IH]; cbn [endsWith].
  - destruct suffix; [|done]. intros _. by exists EmptyString.
  - destruct (String.eqb_spec (String c s) suffix) as [<-|].
    + intros _. by exists EmptyString.
    + intros H. destruct (IH H) as [p ->]. by exists (String c p).
Qed.

Lemma lower_dot c : Ascii.eqb (lower c) "." = Ascii.eqb c ".".
Proof.
  unfold lower.
  destruct ((65 <=? N_of_ascii c) && (N_of_ascii c <=? 90))%N eqn:E; [|done].
  apply andb_true_iff in E as [H1 H2]. apply N.leb_le in H1, H2.
  assert (Hc : Ascii.eqb c "." = false).
  { destruct (Ascii.eqb_spec c "."); [|done]. subst. cbn in H1. lia. }
  rewrite Hc. destruct (Ascii.eqb_spec (ascii_of_N (N_of_ascii c + 32)) ".")
    as [Heq|]; [|done].
  apply (f_equal N_of_ascii) in Heq.
  rewrite N_ascii_embedding in Heq by lia. cbn in Heq. lia.
Qed.

Lemma split_toLowerCase s :
  split "." (toLowerCase s) = map toLowerCase (split "." s).
Proof.
  induction s as [|c s IH]; simpl; [done|].
  rewrite lower_dot, IH. destruct (Ascii.eqb c "."); [done|].
  by destruct (split "." s).
Qed.

Lemma last_map_lower (l : list string) :
  toLowerCase (List.last l EmptyString) =
  List.last (map toLowerCase l) EmptyString.
Proof.
  induction l as [|a l IH]; [done|]. simpl.
  destruct l as [|b l]; [done|]. exact IH.
Qed.

Fixpoint no_dot (s : string) : bool :=
  match s with
  | String c s' => negb (Ascii.eqb c ".") && no_dot s'
  | EmptyString => true
  end.

Lemma split_no_dot e : no_dot e = true → split "." e = [e].
Proof.
  induction e as [|c e IH]; simpl; [done|].
  intros [Hc He]%andb_true_iff. apply negb_true_iff in Hc.
  by rewrite Hc, (IH He).
Qed.

Lemma split_dot_last p e :
  no_dot e = true →
  ∃ segs, segs ≠ [] ∧ split "." (p +:+ String "." e) = segs ++ [e].
Proof.
  intros He. induction p as [|c p (segs & Hne & IH)]; simpl.
  - exists [EmptyString]. by rewrite (split_no_dot e He).
  - rewrite IH. destruct (Ascii.eqb c ".").
    + by exists (EmptyString :: segs).
    + destruct segs as [|s0 segs]; [done|]. by exists (String c s0 :: segs).
Qed.

Lemma last_snoc_string (segs : list string) e :
  List.last (segs ++ [e]) EmptyString = e.
Proof. apply List.last_last. Qed.

(** X16. The type served for a file with a video extension is the one [mimeMap]
    lists for that extension, whatever the case of its letters. *)
Theorem contentType_of_video (f : File) :
  is_video f = true →
  ∃ e mime, In (String "." e) VIDEO_EXTS ∧
            endsWith (toLowerCase (f_name f)) (String "." e) = true ∧
            JSMap.get e mimeMap = Some mime ∧
            contentType f = mime.
Proof.
  unfold is_video. intros Hv. apply existsb_exists in Hv as (ext & Hin & Hends).
  assert (Hext : ∃ e, ext = String "." e ∧ no_dot e = true ∧
                      is_Some (JSMap.get e mimeMap)).
  { simpl in Hin.
    repeat (destruct Hin as [<-|Hin];
            [eexists; split; [reflexivity|split; [reflexivity|by eexists]]|]).
    destruct Hin. }
  destruct Hext as (e & -> & Hnd & [mime Hmime]).
  exists e, mime. split; [done|]. split; [done|]. split; [done|].
  destruct (endsWith_app _ _ Hends) as [p Hp].
  destruct (split_dot_last p e Hnd) as (segs & _ & Hsplit).
  unfold contentType. cbv zeta.
  rewrite last_map_lower, <- split_toLowerCase, Hp, Hsplit, last_snoc_string.
  rewrite Hmime. simpl in Hin.
  assert (Hne : mime ≠ EmptyString).
  { repeat (destruct Hin as [Heq|Hin];
            [injection Heq as <-; simpl in Hmime; injection Hmime as <-;
             discriminate|]).
    destruct Hin. }
  unfold or_default. by destruct (String.eqb_spec mime EmptyString).
Qed.

Lemma contentType_of_video_witness :
  contentType (mkFile "Holiday.2019.MKV" 1) = "video/x-matroska".
Proof.
  destruct (contentType_of_video (mkFile "Holiday.2019.MKV" 1) eq_refl)
    as (e & mime & _ & _ & _ & H).
  reflexivity.
Defined.

(** *** Status and readiness *)

Lemma threshold_le p : Qle_bool (1 # 100) p = true → Qle_bool (5 # 1000) p = true.
Proof.
  rewrite !Qle_bool_iff. intros H. eapply Qle_trans; [|exact H]. done.
Qed.

(** X17. The status read ["streaming"] implies [ready]; a ready transfer has a
    file, so that the stream endpoint does not answer 404, and, unless an
    error is recorded, its status is ["downloading"] or ["streaming"]. The
    status is ["idle"] only when no error, no torrent and no magnet is held;
    a recorded error hides every other status. *)
Theorem status_ready_coherent (g : Gateway) :
  (status g = "streaming" → ready g = true) ∧
  (ready g = true →
     (∀ range, res_status (get_stream range g) ≠ 404%Z) ∧
     (truthy (addError g) = false →
      status g = "downloading" ∨ status g = "streaming")) ∧
  (status g = "idle" ↔
     truthy (addError g) = false ∧ activeTorrent g = None ∧
     truthy (activeMagnet g) = false) ∧
  (truthy (addError g) = true → status g = "error").
Proof.
  unfold status, ready.
  split; [|split; [|split]].
  - destruct (truthy (addError g)); [done|].
    destruct (activeTorrent g) as [t|].
    + destruct (activeFile g); [|done].
      destruct (Qle_bool (1 # 100) (t_progress t)) eqn:E; [|done].
      intros _. by apply threshold_le.
    + by destruct (truthy (activeMagnet g)).
  - destruct (activeTorrent g) as [t|]; [|done].
    destruct (activeFile g) as [f|] eqn:Hf; [|done]. intros _. split.
    + intros range. unfold get_stream. rewrite Hf.
      by destruct (truthy range).
    + intros ->. destruct (Qle_bool (1 # 100) (t_progress t)); auto.
  - destruct (truthy (addError g)); [by split; [|intros [? _]]|].
    destruct (activeTorrent g) as [t|].
    + destruct (activeFile g).
      * destruct (Qle_bool _ _); by split; [|intros (_ & ? & _)].
      * by split; [|intros (_ & ? & _)].
    + destruct (truthy (activeMagnet g)); by split; [|intros (_ & _ & ?)].
  - by intros ->.
Qed.

(** *** The states the gateway reaches *)

Inductive Event :=
| AddReq (magnetURI : option string)
| Metadata (t : TorrentObj)
| ErrorEv (msg : string)
| RemoveReq.

Definition gstep (g : Gateway) (e : Event) : Gateway :=
  match e with
  | AddReq m => fst (fst (post_add m g))
  | Metadata t => on_torrent t g
  | ErrorEv msg => on_error msg g
  | RemoveReq => fst (post_remove g)
  end.

Definition reach (es : list Event) : Gateway := fold_left gstep es idle.

(** A selected file is a video file of the torrent that is held. *)
Definition selected_ok (g : Gateway) : Prop :=
  match activeFile g with
  | Some f => ∃ t, activeTorrent g = Some t ∧ In f (t_files t) ∧
                   is_video f = true
  | None => True
  end.

Lemma selected_ok_gstep g e : selected_ok g → selected_ok (gstep g e).
Proof.
  intros Hok. destruct e as [m|t|msg|]; simpl.
  - unfold post_add. destruct (negb (truthy m)); [done|].
    destruct (same_magnet g _ && is_some (activeTorrent g)); [done|].
    unfold selected_ok in *.
    destruct (activeTorrent g) as [t|] eqn:Ht; simpl; [done|].
    rewrite Ht. destruct (activeFile g); [|done].
    destruct Hok as (t & Habs & _). congruence.
  - unfold on_torrent, selected_ok. simpl.
    destruct (findVideoFile t) as [f|] eqn:E; [|done].
    exists t. split; [done|].
    destruct (findVideoFile_video t f E) as [Hin Hv].
    by split.
  - exact Hok.
  - exact I.
Qed.

Lemma selected_ok_reach es : selected_ok (reach es).
Proof.
  unfold reach.
  assert (H : ∀ g, selected_ok g → selected_ok (fold_left gstep es g)).
  { induction es as [|e es IH]; intros g Hg; simpl; [done|].
    by apply IH, selected_ok_gstep. }
  apply H. exact I.
Qed.

(** X18. Whatever requests, metadata and errors arrive in whatever order: the
    file the gateway streams is a video file of the torrent it holds, and
    while the status reads idle, connecting or no-video the stream endpoint
    answers 404. *)
Theorem gateway_streams_held_video (es : list Event) (range : option string) :
  let g := reach es in
  (∀ f, activeFile g = Some f →
     ∃ t, activeTorrent g = Some t ∧ In f (t_files t) ∧ is_video f = true) ∧
  (status g = "idle" ∨ status g = "connecting" ∨ status g = "no-video" →
   res_status (get_stream range g) = 404%Z).
Proof.
  intros g. pose proof (selected_ok_reach es) as Hok. fold g in Hok.
  unfold selected_ok in Hok. split.
  - intros f Hf. by rewrite Hf in Hok.
  - intros Hst. unfold get_stream.
    destruct (activeFile g) as [f|] eqn:Hf; [|done].
    destruct Hok as (t & Ht & _). unfold status in Hst. rewrite Ht, Hf in Hst.
    destruct (truthy (addError g)); [by destruct Hst as [?|[?|?]]|].
    destruct (Qle_bool _ _); by destruct Hst as [?|[?|?]].
Qed.

(** *** The stream after the metadata has arrived *)

(** X19. Once the metadata of a torrent has arrived, a request without a range
    is answered with the whole of its largest video file; if the torrent has
    no video file the answer is 404 and, no error being recorded, the status
    reads no-video. *)
Theorem stream_after_metadata (t : TorrentObj) (g : Gateway) :
  (∀ f, findVideoFile t = Some f →
     get_stream None (on_torrent t g) =
       mkResponse 200
         [ ("Content-Length", HNum (Int (f_length f)));
           ("Content-Type", HStr (contentType f));
           ("Accept-Ranges", HStr "bytes") ]
         (ReadStream f None)) ∧
  ((∀ f, In f (t_files t) → is_video f = false) →
     (∀ range, res_status (get_stream range (on_torrent t g)) = 404%Z) ∧
     (truthy (addError g) = false → status (on_torrent t g) = "no-video")).
Proof.
  split.
  - intros f Hf. unfold get_stream, on_torrent. simpl. by rewrite Hf.
  - intros Hnone. apply findVideoFile_None in Hnone.
    unfold get_stream, status, on_torrent. simpl. rewrite Hnone.
    split; [done|]. by intros ->.
Qed.

(** *** Range headers without a start or without a dash *)

Lemma get_stream_without_start_or_dash (g : Gateway) (file : File) (n : Z) :
  activeFile g = Some file → (0 <= n)%Z →
  get_stream (Some ("bytes=-" +:+ string_of_Z n)) g =
    mkResponse 206
      [ ("Content-Range",
         HStr ("bytes NaN-" +:+ string_of_Z n +:+ "/"
               +:+ string_of_Z (f_length file)));
        ("Accept-Ranges", HStr "bytes");
        ("Content-Length", HNum NaN);
        ("Content-Type", HStr (contentType file)) ]
      (ReadStream file (Some (NaN, Int n))) ∧
  get_stream (Some ("bytes=" +:+ string_of_Z n)) g =
    partial_content file n (f_length file - 1).
Proof.
  intros Hf Hn. split.
  - unfold get_stream. rewrite Hf.
    change (truthy (Some ("bytes=-" +:+ string_of_Z n))) with true.
    cbn [default from_option id].
    change (replace_first "bytes=" "" ("bytes=-" +:+ string_of_Z n))
      with (String "-" (string_of_Z n)).
    cbn [split Ascii.eqb Bool.eqb].
    rewrite split_digits by by apply string_of_Z_digits.
    cbn [nth nth_error].
    rewrite string_of_Z_truthy by done.
    rewrite parseInt_string_of_Z by done. reflexivity.
  - unfold get_stream. rewrite Hf.
    change (truthy (Some ("bytes=" +:+ string_of_Z n))) with true.
    cbn [default from_option id].
    change (replace_first "bytes=" "" ("bytes=" +:+ string_of_Z n))
      with (string_of_Z n).
    rewrite split_digits by by apply string_of_Z_digits.
    cbn [nth nth_error truthy].
    rewrite parseInt_string_of_Z by done. reflexivity.
Qed.

(** X20. A suffix range [bytes=-n] is not read as "the last n bytes": the start
    is not a number and the end is [n], so the handler calls [writeHead] with
    206, [Content-Range: bytes NaN-n/total] and a [Content-Length] that is
    not a number, and pipes a read stream asked to start at [NaN]. A header
    [bytes=n] without a dash is read as [bytes=n-]. In both cases the handler
    calls nothing else on the response, also when the stream fails. [n] and
    the length are at most [MAX_SAFE_INTEGER]. *)
Theorem range_without_start_or_dash (g : Gateway) (file : File) (n : Z) :
  activeFile g = Some file →
  (0 <= n <= MAX_SAFE_INTEGER)%Z →
  (0 <= f_length file <= MAX_SAFE_INTEGER)%Z →
  (∀ e, serve (Some ("bytes=-" +:+ string_of_Z n)) g e =
     [ WriteHead 206
         [ ("Content-Range",
            HStr ("bytes NaN-" +:+ string_of_Z n +:+ "/"
                  +:+ string_of_Z (f_length file)));
           ("Accept-Ranges", HStr "bytes");
           ("Content-Length", HNum NaN);
           ("Content-Type", HStr (contentType file)) ];
       Pipe file (Some (NaN, Int n)) ]) ∧
  (∀ e, serve (Some ("bytes=" +:+ string_of_Z n)) g e =
     [ WriteHead 206
         [ ("Content-Range",
            HStr ("bytes " +:+ string_of_Z n +:+ "-"
                  +:+ string_of_Z (f_length file - 1) +:+ "/"
                  +:+ string_of_Z (f_length file)));
           ("Accept-Ranges", HStr "bytes");
           ("Content-Length", HNum (Int (f_length file - 1 - n + 1)));
           ("Content-Type", HStr (contentType file)) ];
       Pipe file (Some (Int n, Int (f_length file - 1))) ]).
Proof.
  intros Hf [Hn _] _.
  destruct (get_stream_without_start_or_dash g file n Hf Hn) as [H1 H2].
  split; intros e.
  - by apply serve_piped.
  - by apply serve_piped.
Qed.

Lemma range_without_start_or_dash_witness :
  (∀ e, serve (Some "bytes=-500") serving e =
     [ WriteHead 206
         [ ("Content-Range", HStr "bytes NaN-500/10000");
           ("Accept-Ranges", HStr "bytes");
           ("Content-Length", HNum NaN);
           ("Content-Type", HStr "video/mp4") ];
       Pipe movie (Some (NaN, Int 500)) ]) ∧
  (∀ e, serve (Some "bytes=9000") serving e =
     [ WriteHead 206
         [ ("Content-Range", HStr "bytes 9000-9999/10000");
           ("Accept-Ranges", HStr "bytes");
           ("Content-Length", HNum (Int 1000));
           ("Content-Type", HStr "video/mp4") ];
       Pipe movie (Some (Int 9000, Int 9999)) ]).
Proof.
  split.
  - exact (proj1 (range_without_start_or_dash serving movie 500 eq_refl
                    ltac:(by vm_compute) ltac:(by vm_compute))).
  - exact (proj2 (range_without_start_or_dash serving movie 9000 eq_refl
                    ltac:(by vm_compute) ltac:(by vm_compute))).
Defined.

End TorrentMore.

(** ** client/src/pages/Room.jsx: remote commands, their timers and the local
    player events *)

Module RoomPage.
Import Client.

(** [playerRef.current]: nothing yet, the YouTube player, or the [<video>]
    element of the HTML5 and torrent players. *)
Inductive PlayerRef := NoPlayer | YTPlayer | VideoEl.

(** Calls made on the player. *)
Inductive Cmd :=
| SeekTo (t : Q)
| PlayVideo
| PauseVideo
| CueVideoById (vid : option string)
| SetCurrentTime (t : Q)
| VideoPlay
| VideoPause.

Definition seekTo (p : PlayerRef) (time : Q) : list Cmd :=
  match p with
  | NoPlayer => []
  | YTPlayer => [SeekTo time]
  | VideoEl => [SetCurrentTime time]
  end.

Definition playPlayer (p : PlayerRef) : list Cmd :=
  match p with
  | NoPlayer => []
  | YTPlayer => [PlayVideo]
  | VideoEl => [VideoPlay]
  end.

Definition pausePlayer (p : PlayerRef) : list Cmd :=
  match p with
  | NoPlayer => []
  | YTPlayer => [PauseVideo]
  | VideoEl => [VideoPause]
  end.

(** What a [setTimeout] callback of the page does when it runs. *)
Inductive TimerAction :=
| Clear
| CueThenClear (vid : option string).

Record Page := mkPage {
  refs : Refs;
  playerRef : PlayerRef;
  mediaMode : string;
  videoId : option string;
  directUrl : option string;
  magnetURI : option string;
  (** pending timeouts, in the order they were set, with the time at which
      each is due *)
  timers : list (Z * TimerAction)
}.

Definition set_remote (b : bool) (pg : Page) : Refs :=
  mkRefs b (lastTimeRef (refs pg)).

Definition arm (now delay : Z) (a : TimerAction) (pg : Page)
  : list (Z * TimerAction) :=
  timers pg ++ [((now + delay)%Z, a)].

(** [socket.on("play")], [socket.on("pause")], [socket.on("seek")] *)
Definition on_play (now : Z) (currentTime : Q) (pg : Page)
  : Page * list Cmd :=
  (mkPage (set_remote true pg) (playerRef pg) (mediaMode pg) (videoId pg)
          (directUrl pg) (magnetURI pg) (arm now 500 Clear pg),
   seekTo (playerRef pg) currentTime ++ playPlayer (playerRef pg)).

Definition on_pause (now : Z) (currentTime : Q) (pg : Page)
  : Page * list Cmd :=
  (mkPage (set_remote true pg) (playerRef pg) (mediaMode pg) (videoId pg)
          (directUrl pg) (magnetURI pg) (arm now 500 Clear pg),
   seekTo (playerRef pg) currentTime ++ pausePlayer (playerRef pg)).

Definition on_seek (now : Z) (currentTime : Q) (pg : Page)
  : Page * list Cmd :=
  (mkPage (set_remote true pg) (playerRef pg) (mediaMode pg) (videoId pg)
          (directUrl pg) (magnetURI pg) (arm now 500 Clear pg),
   seekTo (playerRef pg) currentTime).

Definition equals (x : option string) (s : string) : bool :=
  match x with
  | Some y => String.eqb y s
  | None => false
  end.

(** [socket.on("video-change")] *)
Definition on_video_change (now : Z)
    (sourceType vid url mag : option string) (pg : Page) : Page :=
  let mode := or_default sourceType "youtube" in
  if equals sourceType "youtube" then
    mkPage (set_remote true pg) (playerRef pg) mode vid (directUrl pg)
           (magnetURI pg) (arm now 100 (CueThenClear vid) pg)
  else if equals sourceType "url" then
    mkPage (set_remote true pg) (playerRef pg) mode (videoId pg) url
           (magnetURI pg) (arm now 300 Clear pg)
  else if equals sourceType "torrent" then
    mkPage (set_remote true pg) (playerRef pg) mode (videoId pg)
           (directUrl pg) mag (arm now 300 Clear pg)
  else
    mkPage (set_remote true pg) (playerRef pg) mode (videoId pg)
           (directUrl pg) (magnetURI pg) (arm now 100 Clear pg).

(** A timeout callback runs. *)
Definition run_timer (a : TimerAction) (pg : Page) (rest : list (Z * TimerAction))
  : Page * list Cmd :=
  (mkPage (set_remote false pg) (playerRef pg) (mediaMode pg) (videoId pg)
          (directUrl pg) (magnetURI pg) rest,
   match a, playerRef pg with
   | CueThenClear vid, YTPlayer => [CueVideoById vid]
   | _, _ => []
   end).

(** The pending timeout that is due first; among those due at the same time
    the one set first. *)
Fixpoint earliest (l : list (Z * TimerAction)) : option (Z * TimerAction) :=
  match l with
  | [] => None
  | x :: l' =>
      match earliest l' with
      | Some y => if (fst y <? fst x)%Z then Some y else Some x
      | None => Some x
      end
  end.

Fixpoint remove_first (due : Z) (l : list (Z * TimerAction))
  : list (Z * TimerAction) :=
  match l with
  | [] => []
  | x :: l' => if (fst x =? due)%Z then l' else x :: remove_first due l'
  end.

(** The next timeout fires; nothing happens when none is pending. *)
Definition fire_next (pg : Page) : Page * list Cmd :=
  match earliest (timers pg) with
  | Some (due, a) => run_timer a pg (remove_first due (timers pg))
  | None => (pg, [])
  end.

(** Events sent to the server. *)
Inductive Emit :=
| EmitPlay (roomId : string) (currentTime : Q)
| EmitPause (roomId : string) (currentTime : Q)
| EmitSeek (roomId : string) (currentTime : Q).

(** [onYTStateChange]: [data] is the state code of the event, [currentTime]
    what the player reports. *)
Definition onYTStateChange (roomId : string) (data : Z) (currentTime : Q)
    (pg : Page) : list Emit :=
  if isRemoteAction (refs pg) then []
  else if (data =? 1)%Z then [EmitPlay roomId currentTime]
  else if (data =? 2)%Z then [EmitPause roomId currentTime]
  else [].





(** The commands a page receives from the server. *)
Inductive Remote :=
| RPlay (t : Q)
| RPause (t : Q)
| RSeek (t : Q)
| RVideoChange (sourceType vid url mag : option string).

Definition receive (now : Z) (c : Remote) (pg : Page) : Page :=
  match c with
  | RPlay t => fst (on_play now t pg)
  | RPause t => fst (on_pause now t pg)
  | RSeek t => fst (on_seek now t pg)
  | RVideoChange sourceType vid url mag =>
      on_video_change now sourceType vid url mag pg
  end.

(** The delay of the timeout a command sets. *)
Definition window (c : Remote) : Z :=
  match c with
  | RVideoChange sourceType _ _ _ =>
      if equals sourceType "url" || equals sourceType "torrent" then 300 else 100
  | _ => 500
  end.

End RoomPage.

(** ** client/src/components/YouTubePlayer.jsx: loading the IFrame API *)

Module YouTubeAPI.

(** The module-level variables, the script tags appended to the document
    and whether [window.onYouTubeIframeAPIReady] is installed. Callers are
    told apart by a number. *)
Record Loader := mkLoader {
  apiReady : bool;
  apiLoading : bool;
  apiCallbacks : list nat;
  scripts : nat;
  installed : bool
}.

Definition fresh : Loader := mkLoader false false [] 0 false.

(** [loadYouTubeAPI()] called by [caller]: the loader afterwards and the
    callers whose promise is resolved by the call. *)
Definition loadYouTubeAPI (caller : nat) (l : Loader) : Loader * list nat :=
  if apiReady l then (l, [caller])
  else
    let cbs := apiCallbacks l ++ [caller] in
    if apiLoading l
    then (mkLoader (apiReady l) (apiLoading l) cbs (scripts l) (installed l),
          [])
    else (mkLoader (apiReady l) true cbs (S (scripts l)) true, []).

(** The script has loaded and calls [window.onYouTubeIframeAPIReady], if it
    is there. *)
Definition onYouTubeIframeAPIReady (l : Loader) : Loader * list nat :=
  if installed l
  then (mkLoader true (apiLoading l) [] (scripts l) (installed l),
        apiCallbacks l)
  else (l, []).

Inductive Event := Load (caller : nat) | Ready.

Definition step (l : Loader) (e : Event) : Loader * list nat :=
  match e with
  | Load caller => loadYouTubeAPI caller l
  | Ready => onYouTubeIframeAPIReady l
  end.

(** The loader after a sequence of events and the callers resolved on the
    way, in the order of their resolution. *)
Fixpoint run (es : list Event) (l : Loader) : Loader * list nat :=
  match es with
  | [] => (l, [])
  | e :: es' =>
      let '(l1, r1) := step l e in
      let '(l2, r2) := run es' l1 in
      (l2, r1 ++ r2)
  end.

Definition callers (es : list Event) : list nat :=
  flat_map (fun e => match e with Load c => [c] | Ready => [] end) es.

End YouTubeAPI.

(** ** Text entered by the user: ChatPanel.jsx, UsernameModal.jsx *)

Module Forms.
Import JS.

(** [s.trimEnd()] and [s.trim()], on the code units below 256 *)
Fixpoint trimEnd (s : string) : string :=
  match s with
  | EmptyString => EmptyString
  | String c s' =>
      match trimEnd s' with
      | EmptyString => if is_space c then EmptyString else String c EmptyString
      | r => String c r
      end
  end.

Definition trim (s : string) : string := trimEnd (skip_spaces s).

(** *** ChatPanel: [send] *)

Record SendMessage := mkSend { sm_roomId : string; sm_text : string }.

(** [send(text)] with the input box holding [input]: the input box
    afterwards and what is emitted. [text] is the suggestion clicked, or
    [None] when the user pressed Enter or Send. *)
Definition send (roomId : string) (text : option string) (input : string)
  : string * list SendMessage :=
  let t := trim (if truthy text then default EmptyString text else input) in
  if negb (truthy (Some t)) then (input, [])
  else (if negb (truthy text) then EmptyString else input,
        [mkSend roomId t]).

(** *** UsernameModal: [handleSubmit] and the effect run on mount *)

Record Modal := mkModal {
  name : string;
  show : bool;
  (** [localStorage["watchtogether_username"]] *)
  saved : option string
}.

(** Each function returns the modal afterwards and the calls of [onJoin]. *)
Definition handleSubmit (m : Modal) : Modal * list string :=
  let trimmed := trim (name m) in
  if negb (truthy (Some trimmed)) then (m, [])
  else (mkModal (name m) false (Some trimmed), [trimmed]).

Definition on_mount (m : Modal) : Modal * list string :=
  if truthy (saved m)
  then (mkModal (name m) false (saved m), [default EmptyString (saved m)])
  else (m, []).

End Forms.

(** ** Suppression of local events while a remote command is applied *)

Module RoomPageFacts.
Import Client RoomPage.

Lemma receive_refs now c pg :
  refs (receive now c pg) = mkRefs true (lastTimeRef (refs pg)).
Proof.
  destruct c as [t|t|t|sT vid u mag]; try reflexivity.
  simpl. unfold on_video_change.
  destruct (equals sT "youtube"); [done|].
  destruct (equals sT "url"); [done|]. by destruct (equals sT "torrent").
Qed.

Lemma receive_timers now c pg :
  ∃ a, timers (receive now c pg) = timers pg ++ [((now + window c)%Z, a)].
Proof.
  destruct c as [t|t|t|sT vid u mag]; try (by exists Clear).
  simpl. unfold on_video_change, arm.
  destruct (equals sT "youtube") eqn:E1.
  - exists (CueThenClear vid).
    assert (equals sT "url" = false ∧ equals sT "torrent" = false) as [-> ->].
    { destruct sT as [s|]; [|done]. simpl in *.
      apply String.eqb_eq in E1 as ->. done. }
    done.
  - destruct (equals sT "url"); [by exists Clear|].
    destruct (equals sT "torrent"); by exists Clear.
Qed.

Lemma earliest_singleton x : earliest [x] = Some x.
Proof. reflexivity. Qed.


(** X22. Timeouts are not cancelled: when a second command arrives before the
    timeout of the first has fired, that timeout, firing first, ends the
    suppression although the timeout of the second command is still
    pending; a local play is then sent to the server. *)
Theorem earlier_timer_ends_later_window (now1 now2 : Z) (c1 c2 : Remote)
    (pg : Page) (roomId : string) :
  timers pg = [] →
  (now1 + window c1 <= now2 + window c2)%Z →
  let pg2 := receive now2 c2 (receive now1 c1 pg) in
  let pg3 := fst (fire_next pg2) in
  isRemoteAction (refs pg2) = true ∧
  isRemoteAction (refs pg3) = false ∧
  (∃ a, timers pg3 = [((now2 + window c2)%Z, a)]) ∧
  (∀ t, onYTStateChange roomId 1 t pg3 = [EmitPlay roomId t]).
Proof.
  intros Hnil Hle pg2 pg3.
  destruct (receive_timers now1 c1 pg) as [a1 Ha1]. rewrite Hnil in Ha1.
  destruct (receive_timers now2 c2 (receive now1 c1 pg)) as [a2 Ha2].
  rewrite Ha1 in Ha2. fold pg2 in Ha2. cbn [app] in Ha2.
  assert (Hfire : fire_next pg2 =
            run_timer a1 pg2 [((now2 + window c2)%Z, a2)]).
  { unfold fire_next. rewrite Ha2. cbn [earliest fst].
    assert ((now2 + window c2 <? now1 + window c1)%Z = false) as ->
      by (apply Z.ltb_ge; lia).
    cbn [remove_first fst]. by rewrite Z.eqb_refl. }
  subst pg3. rewrite Hfire.
  split; [subst pg2; by rewrite receive_refs|].
  split; [done|]. split; [by exists a2|]. intros t. reflexivity.
Qed.

Definition blank_page : Page :=
  mkPage (mkRefs false 0%Q) YTPlayer "youtube" (Some "dQw4w9WgXcQ") None None
         [].

Lemma earlier_timer_ends_later_window_witness :
  isRemoteAction
    (refs (fst (fire_next (receive 400 (RSeek 80%Q)
                             (receive 0 (RPlay 10%Q) blank_page)))))
    = false ∧
  ∃ a, timers (fst (fire_next (receive 400 (RSeek 80%Q)
                                 (receive 0 (RPlay 10%Q) blank_page))))
       = [(900%Z, a)].
Proof.
  destruct (earlier_timer_ends_later_window 0 400 (RPlay 10%Q) (RSeek 80%Q)
              blank_page "r" eq_refl ltac:(simpl; lia))
    as (_ & Hflag & Htimers & _).
  split; [exact Hflag|exact Htimers].
Defined.

End RoomPageFacts.

(** ** Loading the IFrame API once *)

Module YouTubeAPIFacts.
Import YouTubeAPI.

(** What holds of the loader between events. *)
Record consistent (l : Loader) : Prop := {
  c_installed : installed l = apiLoading l;
  c_scripts : scripts l = if apiLoading l then 1 else 0;
  c_ready : apiReady l = true → apiCallbacks l = [] ∧ apiLoading l = true;
  c_idle : apiLoading l = false → apiCallbacks l = []
}.

Lemma consistent_fresh : consistent fresh.
Proof. split; simpl; done. Qed.

Lemma consistent_step l e :
  consistent l →
  consistent (fst (step l e)) ∧
  apiCallbacks l ++ match e with Load c => [c] | Ready => [] end =
    snd (step l e) ++ apiCallbacks (fst (step l e)).
Proof.
  intros Hl. pose proof Hl as [Hi Hs Hr Hd]. destruct e as [c|]; simpl.
  - unfold loadYouTubeAPI. destruct (apiReady l) eqn:Er.
    + destruct (Hr eq_refl) as [Hnil Hload]. simpl.
      split; [done|]. by rewrite Hnil.
    + destruct (apiLoading l) eqn:El; simpl.
      { split; [|done].
        split; simpl; rewrite ?El, ?Er; done. }
      { split; [|by rewrite (Hd eq_refl)].
        split; simpl; rewrite ?Er, ?Hs; done. }
  - unfold onYouTubeIframeAPIReady. destruct (installed l) eqn:Ei; simpl.
    + split; [|by rewrite !app_nil_r]. rewrite Hi in Ei.
      split; simpl; rewrite ?Ei; done.
    + split; [done|]. by rewrite app_nil_r.
Qed.

Lemma consistent_run es l :
  consistent l →
  consistent (fst (run es l)) ∧
  apiCallbacks l ++ callers es =
    snd (run es l) ++ apiCallbacks (fst (run es l)).
Proof.
  revert l. induction es as [|e es IH]; intros l Hl; simpl.
  - split; [done|]. by rewrite app_nil_r.
  - destruct (consistent_step l e Hl) as [Hl1 Heq1].
    destruct (step l e) as [l1 r1]. simpl in Hl1, Heq1.
    destruct (IH l1 Hl1) as [Hl2 Heq2].
    destruct (run es l1) as [l2 r2]. simpl in *.
    split; [done|].
    destruct e as [c|]; simpl in *.
    + rewrite <- app_assoc, <- Heq2, app_assoc, <- Heq1.
      by rewrite <- app_assoc.
    + rewrite <- app_assoc, <- Heq2, app_assoc, <- Heq1.
      by rewrite app_nil_r.
Qed.

Lemma loading_step l e :
  consistent l →
  apiLoading l = true ∨ (∃ c, e = Load c) →
  apiLoading (fst (step l e)) = true.
Proof.
  intros [Hi Hs Hr Hd] H. destruct e as [c|]; simpl.
  - unfold loadYouTubeAPI. destruct (apiReady l) eqn:Er.
    + by destruct (Hr eq_refl).
    + by destruct (apiLoading l).
  - destruct H as [H|[c H]]; [|done].
    unfold onYouTubeIframeAPIReady. by destruct (installed l).
Qed.

Lemma loading_run es l :
  consistent l →
  apiLoading l = true ∨ callers es ≠ [] →
  apiLoading (fst (run es l)) = true.
Proof.
  revert l. induction es as [|e es IH]; intros l Hl H; simpl.
  - by destruct H.
  - destruct (consistent_step l e Hl) as [Hl1 _].
    pose proof (loading_step l e Hl) as Hstep.
    destruct (step l e) as [l1 r1]. simpl in *.
    specialize (IH l1 Hl1). destruct (run es l1) as [l2 r2]. simpl in *.
    apply IH. destruct e as [c|].
    + left. apply Hstep. right. by exists c.
    + destruct H as [H|H]; [|by right].
      left. apply Hstep. by left.
Qed.

(** X23. Whatever the order of the calls and of the ready notification: the
    script tag is appended by the first call and never again; every caller
    is either resolved or still waiting, once, and callers are resolved in
    the order of their calls; once the API is ready nobody is left
    waiting. *)
Theorem api_loaded_once (es : list Event) :
  let l := fst (run es fresh) in
  let resolved := snd (run es fresh) in
  scripts l = (if apiLoading l then 1 else 0) ∧
  (callers es ≠ [] → scripts l = 1) ∧
  resolved ++ apiCallbacks l = callers es ∧
  (apiReady l = true → resolved = callers es).
Proof.
  intros l resolved.
  destruct (consistent_run es fresh consistent_fresh) as [[Hi Hs Hr Hd] Heq].
  fold l in Hi, Hs, Hr, Hd, Heq. fold resolved in Heq. simpl in Heq.
  split; [done|]. split; [|split; [done|]].
  - intros Hne. rewrite Hs.
    assert (apiLoading l = true) as ->; [|done].
    apply loading_run; [apply consistent_fresh|by right].
  - intros Hready. destruct (Hr Hready) as [Hnil _].
    by rewrite Hnil, app_nil_r in Heq.
Qed.

End YouTubeAPIFacts.

(** ** Trimmed text: chat messages and user names *)

Module FormsFacts.
Import JS Forms.

Fixpoint all_space (s : string) : bool :=
  match s with
  | EmptyString => true
  | String c s' => is_space c && all_space s'
  end.

Definition first_char (s : string) : option ascii :=
  match s with
  | EmptyString => None
  | String c _ => Some c
  end.

Fixpoint last_char (s : string) : option ascii :=
  match s with
  | EmptyString => None
  | String c EmptyString => Some c
  | String _ s' => last_char s'
  end.

(** A non-empty text that neither starts nor ends with white space. *)
Definition tidy (s : string) : Prop :=
  (∃ c, first_char s = Some c ∧ is_space c = false) ∧
  (∃ c, last_char s = Some c ∧ is_space c = false).

Lemma trimEnd_empty s : trimEnd s = EmptyString ↔ all_space s = true.
Proof.
  induction s as [|c s IH]; simpl; [done|].
  destruct (trimEnd s) eqn:E.
  - destruct (is_space c); simpl; [|split; done].
    split; intros _; [by apply IH|done].
  - split; [done|]. intros [_ H]%andb_true_iff. by apply IH in H.
Qed.

Lemma skip_spaces_empty s : skip_spaces s = EmptyString ↔ all_space s = true.
Proof.
  induction s as [|c s IH]; simpl; [done|].
  destruct (is_space c); simpl; [done|]. split; done.
Qed.

Lemma skip_spaces_first s c r :
  skip_spaces s = String c r → is_space c = false.
Proof.
  induction s as [|d s IH]; simpl; [done|].
  destruct (is_space d) eqn:E; [done|]. by intros [= <- <-].
Qed.

Lemma trimEnd_first s : trimEnd s ≠ EmptyString →
  first_char (trimEnd s) = first_char s.
Proof.
  destruct s as [|c s]; simpl; [done|].
  destruct (trimEnd s); [|done]. by destruct (is_space c).
Qed.

Lemma trimEnd_last s c : last_char (trimEnd s) = Some c → is_space c = false.
Proof.
  induction s as [|d s IH]; simpl; [done|].
  destruct (trimEnd s) as [|e r] eqn:E.
  - destruct (is_space d) eqn:Ed; simpl; [done|]. by intros [= <-].
  - intros H. apply IH. exact H.
Qed.

Lemma last_char_some s : s ≠ EmptyString → ∃ c, last_char s = Some c.
Proof.
  induction s as [|d s IH]; [done|]. intros _.
  destruct s as [|e r]; [by exists d|].
  destruct IH as [c Hc]; [done|]. by exists c.
Qed.

Lemma trimEnd_tidy_id s :
  (∃ c, last_char s = Some c ∧ is_space c = false) → trimEnd s = s.
Proof.
  induction s as [|d s IH]; [done|]. intros (c & Hl & Hc).
  destruct s as [|e r].
  - simpl in *. injection Hl as ->. by rewrite Hc.
  - change (last_char (String d (String e r))) with (last_char (String e r))
      in Hl.
    assert (Hs : trimEnd (String e r) = String e r) by (apply IH; eauto).
    change (trimEnd (String d (String e r))) with
      (match trimEnd (String e r) with
       | EmptyString => if is_space d then EmptyString else String d EmptyString
       | r0 => String d r0 end).
    by rewrite Hs.
Qed.

Lemma skip_spaces_tidy_id s :
  (∃ c, first_char s = Some c ∧ is_space c = false) → skip_spaces s = s.
Proof.
  destruct s as [|d s]; [done|]. intros (c & [= <-] & Hc).
  simpl. by rewrite Hc.
Qed.

Lemma trim_empty s : trim s = EmptyString ↔ all_space s = true.
Proof.
  unfold trim. rewrite trimEnd_empty. split.
  - intros H. apply skip_spaces_empty.
    destruct (skip_spaces s) as [|c r] eqn:E; [done|].
    apply skip_spaces_first in E. simpl in H. by rewrite E in H.
  - intros H. apply skip_spaces_empty in H. by rewrite H.
Qed.

Lemma trim_tidy s : all_space s = false → tidy (trim s).
Proof.
  intros H.
  assert (Hne : trim s ≠ EmptyString).
  { intros E. apply trim_empty in E. congruence. }
  split.
  - unfold trim in *. rewrite trimEnd_first by done.
    destruct (skip_spaces s) as [|c r] eqn:E; [done|].
    exists c. split; [done|]. by apply skip_spaces_first in E.
  - destruct (last_char_some _ Hne) as [c Hc]. exists c. split; [done|].
    by apply trimEnd_last in Hc.
Qed.

Lemma tidy_trim s : tidy s → trim s = s.
Proof.
  intros [Hf Hl]. unfold trim. rewrite skip_spaces_tidy_id by done.
  by apply trimEnd_tidy_id.
Qed.

Lemma tidy_truthy s : tidy s → truthy (Some s) = true.
Proof. intros [(c & Hc & _) _]. by destruct s. Qed.

Lemma truthy_trim s : truthy (Some (trim s)) = negb (all_space s).
Proof.
  destruct (all_space s) eqn:E.
  - apply trim_empty in E. by rewrite E.
  - by apply tidy_truthy, trim_tidy.
Qed.

(** The text [send] works on: the suggestion clicked if there is one,
    otherwise what the input box holds. *)
Definition chosen (text : option string) (input : string) : string :=
  if truthy text then default EmptyString text else input.

(** X24. [send] never emits a blank message: when the chosen text is empty or
    white space only, nothing is emitted and the input box is left as it
    is. Otherwise one message is emitted, to the room of the panel; its text
    is the chosen text trimmed, so it is not empty, neither starts nor ends
    with white space and trimming it again changes nothing; the input box is
    cleared when the text was typed and untouched on a quick send. *)
Theorem send_trimmed (roomId : string) (text : option string)
    (input : string) :
  (all_space (chosen text input) = true →
     send roomId text input = (input, [])) ∧
  (all_space (chosen text input) = false →
     let t := trim (chosen text input) in
     send roomId text input =
       (if truthy text then input else EmptyString, [mkSend roomId t]) ∧
     tidy t ∧ trim t = t).
Proof.
  unfold send. fold (chosen text input). rewrite truthy_trim, negb_involutive.
  split; intros H; rewrite H; [done|].
  cbv zeta. split; [by destruct (truthy text)|].
  pose proof (trim_tidy _ H) as Ht. split; [done|]. by apply tidy_trim.
Qed.

Lemma send_trimmed_witness :
  send "ab12cd34" None "  hello there " = ("", [mkSend "ab12cd34" "hello there"])
  ∧ send "ab12cd34" (Some " lol ") "draft" = ("draft", [mkSend "ab12cd34" "lol"]).
Proof.
  split.
  - exact (proj1 (proj2 (send_trimmed "ab12cd34" None "  hello there ")
                    eq_refl)).
  - exact (proj1 (proj2 (send_trimmed "ab12cd34" (Some " lol ") "draft")
                    eq_refl)).
Defined.

(** X25. A name that is empty or white space only is not submitted: the modal
    stays as it is and nothing is stored. Any other name is trimmed, stored
    and passed to [onJoin]; it is not empty, so the server registers the
    user under exactly this name and not as Guest; and a modal mounted later
    with this storage joins under the same name without showing itself. *)
Theorem name_round_trip (m : Modal) :
  (all_space (name m) = true → handleSubmit m = (m, [])) ∧
  (all_space (name m) = false →
     let n := trim (name m) in
     handleSubmit m = (mkModal (name m) false (Some n), [n]) ∧
     tidy n ∧
     or_default (Some n) "Guest" = n ∧
     ∀ name' show',
       on_mount (mkModal name' show' (saved (fst (handleSubmit m)))) =
         (mkModal name' false (Some n), [n])).
Proof.
  unfold handleSubmit. rewrite truthy_trim, negb_involutive.
  split; intros H; rewrite H; [done|].
  cbv zeta. pose proof (trim_tidy _ H) as Ht.
  pose proof (tidy_truthy _ Ht) as Htr. set (n := trim (name m)) in *.
  split; [done|]. split; [done|]. split.
  - unfold or_default. simpl in Htr. by destruct (String.eqb n "").
  - intros name' show'. unfold on_mount. cbn [saved fst negb].
    by rewrite Htr.
Qed.

Lemma name_round_trip_witness :
  handleSubmit (mkModal "  Ada Lovelace " true None) =
    (mkModal "  Ada Lovelace " false (Some "Ada Lovelace"), ["Ada Lovelace"]).
Proof.
  exact (proj1 (proj2 (name_round_trip (mkModal "  Ada Lovelace " true None))
                  eq_refl)).
Defined.

End FormsFacts.
